(** * Galactica zkCertificates: Merkle tree, proofs, Shamir reconstruction,
      verifier time window and the snap's certificate import

    A shallow embedding of
      - [MerkleTree] and [getMerkleRootFromProof] (lib/merkleTree.ts),
      - the [ImportZkCert] case of [processRpcRequest] (snap/src/index.ts),
    together with models of the Shamir reconstruction helper and of the
    verifier contracts' time check, whose sources live outside the files
    at hand. *)

From Stdlib Require Import String.
From Stdlib Require Import List ZArith Lia Bool Arith PeanoNat Zify ZifyNat.
From Stdlib Require Import Ring Field Permutation.
From Stdlib Require Import Zdivisibility Zcong Zmod.
Import ListNotations.
Open Scope string_scope.
Open Scope list_scope.
Open Scope nat_scope.

Set Implicit Arguments.

(* ================================================================== *)
(** ** A fragment of the JavaScript runtime *)
(* ================================================================== *)

(** Exceptions the modelled code can raise.  [Error msg] is
    [throw new Error(msg)]; [RangeError] and [TypeError] are raised by the
    runtime itself ([Array(-1)], a property read on [undefined], a
    conversion of [undefined] to a field element). *)
Inductive Exn : Type :=
| RangeError
| TypeError
| Error (msg : string).

Inductive Result (A : Type) : Type :=
| Ok (a : A)
| Throw (e : Exn).

Arguments Ok {A} a.
Arguments Throw {A} e.

Definition bind {A B} (r : Result A) (k : A -> Result B) : Result B :=
  match r with
  | Ok a => k a
  | Throw e => Throw e
  end.

Notation "x <- e ;; k" := (bind e (fun x => k))
  (at level 61, e at next level, right associativity).

(** A counted [for] loop whose body may throw: the loop variable runs through
    [xs] and the loop state is threaded through the iterations. *)
Fixpoint forEach {S A} (xs : list A) (s : S) (body : S -> A -> Result S)
  : Result S :=
  match xs with
  | [] => Ok s
  | x :: rest => s' <- body s x ;; forEach rest s' body
  end.

(** [a[i]] for a number [i]: [None] stands for [undefined], which is what
    a read past the end or at a negative index gives. *)
Definition at_ {A} (a : list A) (i : Z) : option A :=
  if (i <? 0)%Z then None else nth_error a (Z.to_nat i).

(** A read [a[i]] from an array whose slots may themselves hold
    [undefined]: both a missing slot and such a slot read as [undefined]. *)
Definition read (a : list (option string)) (i : nat) : option string :=
  match nth_error a i with
  | Some v => v
  | None => None
  end.

(** [x ?? y] *)
Definition nullish {A} (x y : option A) : option A :=
  match x with
  | Some _ => x
  | None => y
  end.

(** [a[i] = v] for [i <= a.length]: overwrite, or grow by one at the end. *)
Definition setAt {A} (a : list A) (i : nat) (v : A) : list A :=
  firstn i a ++ v :: skipn (S i) a.

(** [a.indexOf(x)] on strings: first position holding [x], [-1] if none. *)
Fixpoint indexOf (a : list string) (x : string) : Z :=
  match a with
  | [] => (-1)%Z
  | y :: rest =>
      if String.eqb y x then 0%Z
      else let r := indexOf rest x in
           if (r =? -1)%Z then (-1)%Z else (r + 1)%Z
  end.

(** The values of [pos] in [for (pos = 0; pos < len; pos += 2)]. *)
Definition evenPositions (len : nat) : list nat :=
  filter Nat.even (seq 0 len).

(* ================================================================== *)
(** ** lib/merkleTree.ts *)
(* ================================================================== *)

Record MerkleTree : Type := mkMerkleTree {
  emptyLeaf : string;
  depth : nat;
  emptyBranchLevels : list string;
  tree : list (list string)
}.

(** What [new MerkleTree(depth, poseidon)] leaves behind when it returns.
    [Built t] is a tree whose levels hold strings.  [BuiltRootUndefined] is
    the object whose root slot [tree[depth]] was assigned [[undefined]]
    because [emptyBranchLevels[depth]] was [undefined]. *)
Inductive Constructed : Type :=
| Built (t : MerkleTree)
| BuiltRootUndefined (depth : Z) (emptyBranchLevels : list string).

Record MerkleProof : Type := mkMerkleProof {
  leaf : string;
  pathElements : list (option string);
  leafIndex : Z
}.

Definition LeafNotFound (leaf : string) : Exn :=
  Error ("Can not create Merkle proof because " ++ leaf
         ++ " is not in the list of leaves")%string.

Section MerkleTree.

(** [poseidon l r] is [field.toObject(poseidon([l, r])).toString()] on two
    decimal field-element strings; the hash itself is an external
    primitive.  [keccakGalactica] is the constant
    [(arrayToBigInt(keccak256('Galactica')) % SNARK_SCALAR_FIELD).toString()]. *)
Variable poseidon : string -> string -> string.
Variable keccakGalactica : string.

(** [calculateNodeHash(left, right)].  The adapter converts both arguments
    to field elements; handed an [undefined] it raises a [TypeError]. *)
Definition calculateNodeHash (left right : option string) : Result string :=
  match left, right with
  | Some l, Some r => Ok (poseidon l r)
  | _, _ => Throw TypeError
  end.

(** [calculateEmptyBranchHashes(depth)]: [i] runs from [1] to [depth]
    (no iteration at all when [depth < 1]). *)
Definition calculateEmptyBranchHashes (emptyLeaf : string) (depth : Z)
  : Result (list string) :=
  forEach (seq 1 (Z.to_nat depth)) [emptyLeaf]
    (fun levels i =>
       h <- calculateNodeHash (at_ levels (Z.of_nat i - 1))
                              (at_ levels (Z.of_nat i - 1)) ;;
       Ok (levels ++ [h])).

(** [new MerkleTree(depth, poseidon)], for an integer [depth].
    [Array(depth + 1)] raises a [RangeError] on a negative length; the slots
    below [depth] are set to [[]] and slot [depth] to the one-element root
    level.  How large an array the engine can allocate is not part of the
    model. *)
Definition newMerkleTree (depth : Z) : Result Constructed :=
  let emptyLeaf := keccakGalactica in
  levels <- calculateEmptyBranchHashes emptyLeaf depth ;;
  if (depth + 1 <? 0)%Z then Throw RangeError
  else
    match at_ levels depth with
    | Some rootHash =>
        Ok (Built {| emptyLeaf := emptyLeaf;
                     depth := Z.to_nat depth;
                     emptyBranchLevels := levels;
                     tree := repeat [] (Z.to_nat depth) ++ [[rootHash]] |})
    | None => Ok (BuiltRootUndefined depth levels)
    end.

(** The inner loop of [insertLeaves]: the parents of level [cur], with
    [fallback] being [this.emptyBranchLevels[level]]. *)
Definition hashLevel (cur : list string) (fallback : option string)
  : Result (list string) :=
  forEach (evenPositions (length cur)) []
    (fun above pos =>
       h <- calculateNodeHash
              (nth_error cur pos)
              (nullish (nth_error cur (pos + 1)) fallback) ;;
       Ok (above ++ [h])).

(** [insertLeaves(leaves)].  A read of [this.tree[level]] that gives
    [undefined] raises a [TypeError] at the following property access; the
    levels already rewritten when an exception leaves the method are not
    kept in the model. *)
Definition insertLeaves (t : MerkleTree) (leaves : list string)
  : Result MerkleTree :=
  if length leaves =? 0 then Ok t
  else
    match nth_error (tree t) 0 with
    | None => Throw TypeError
    | Some level0 =>
        tr <- forEach (seq 0 (depth t)) (setAt (tree t) 0 (level0 ++ leaves))
                (fun tr level =>
                   match nth_error tr level with
                   | None => Throw TypeError
                   | Some cur =>
                       above <- hashLevel cur
                                  (nth_error (emptyBranchLevels t) level) ;;
                       Ok (setAt tr (level + 1) above)
                   end) ;;
        Ok {| emptyLeaf := emptyLeaf t;
              depth := depth t;
              emptyBranchLevels := emptyBranchLevels t;
              tree := tr |}
    end.

(** [get root()]: [this.tree[this.depth][0]]. *)
Definition root (t : MerkleTree) : Result (option string) :=
  match nth_error (tree t) (depth t) with
  | None => Throw TypeError
  | Some top => Ok (nth_error top 0)
  end.

(** [createProof(leaf)].  The loop state is [(path, curIndex)]. *)
Definition createProof (t : MerkleTree) (leaf : string) : Result MerkleProof :=
  match nth_error (tree t) 0 with
  | None => Throw TypeError
  | Some level0 =>
      let leafIndex := indexOf level0 leaf in
      if (leafIndex =? -1)%Z then Throw (LeafNotFound leaf)
      else
        st <- forEach (seq 0 (depth t)) ([], leafIndex)
                (fun st level =>
                   let '(path, curIndex) := st in
                   match nth_error (tree t) level with
                   | None => Throw TypeError
                   | Some cur =>
                       let sibling :=
                         if (Z.rem curIndex 2 =? 0)%Z
                         then nullish (at_ cur (curIndex + 1))
                                      (nth_error (emptyBranchLevels t) level)
                         else at_ cur (curIndex - 1) in
                       Ok (path ++ [sibling], (curIndex / 2)%Z)
                   end) ;;
        Ok {| leaf := leaf; pathElements := fst st; leafIndex := leafIndex |}
  end.

(** [getMerkleRootFromProof(proof, poseidon)].  [isNodeOnRight] is
    [(BigInt(leafIndex) >> BigInt(i)) % 2n === 1n]: an arithmetic shift
    and a truncating remainder. *)
Definition isNodeOnRight (leafIndex : Z) (i : nat) : bool :=
  (Z.rem (Z.shiftr leafIndex (Z.of_nat i)) 2 =? 1)%Z.

Definition getMerkleRootFromProof (proof : MerkleProof) : Result string :=
  _dummyTree <- newMerkleTree 0 ;;
  forEach (seq 0 (length (pathElements proof))) (leaf proof)
    (fun currentNode i =>
       if isNodeOnRight (leafIndex proof) i
       then calculateNodeHash (read (pathElements proof) i)
                              (Some currentNode)
       else calculateNodeHash (Some currentNode)
                              (read (pathElements proof) i)).

End MerkleTree.

(** *** Closed forms used to describe the tree

    [emptyHashes e i] is the hash of an all-empty subtree of height [i];
    [parents e cur] pairs up the entries of a level from the left, with [e]
    as the right partner of an unpaired last entry; [levelAt e leaves l] is
    level [l] of the tree over [leaves]; [ceilDiv a b] is [ceil(a / b)]. *)
Section MerkleClosedForms.
Variable poseidon : string -> string -> string.

Fixpoint emptyHashes (e : string) (i : nat) : string :=
  match i with
  | 0 => e
  | S j => poseidon (emptyHashes e j) (emptyHashes e j)
  end.

Fixpoint parents (e : string) (cur : list string) : list string :=
  match cur with
  | [] => []
  | [a] => [poseidon a e]
  | a :: b :: rest => poseidon a b :: parents e rest
  end.

Fixpoint levelAt (e : string) (leaves : list string) (l : nat) : list string :=
  match l with
  | 0 => leaves
  | S k => parents (emptyHashes e k) (levelAt e leaves k)
  end.

(** The tree the constructor builds at depth [d]. *)
Definition freshTree (keccak : string) (d : nat) : MerkleTree :=
  {| emptyLeaf := keccak;
     depth := d;
     emptyBranchLevels := map (emptyHashes keccak) (seq 0 (S d));
     tree := repeat [] d ++ [[emptyHashes keccak d]] |}.

(** The shape every constructed tree keeps: one slot per level and the
    precomputed empty-branch hashes. *)
Definition wellFormed (t : MerkleTree) : Prop :=
  emptyBranchLevels t
  = map (emptyHashes (emptyLeaf t)) (seq 0 (S (depth t)))
  /\ length (tree t) = S (depth t).
End MerkleClosedForms.

Definition ceilDiv (a b : nat) : nat := (a + b - 1) / b.

(** The sibling [createProof] picks at [level] for the leaf at position [i]:
    the node's own position there is [i / 2^level]. *)
Definition siblingAt (t : MerkleTree) (i level : nat) : option string :=
  match nth_error (tree t) level with
  | None => None
  | Some cur =>
      let c := i / 2 ^ level in
      if Nat.even c
      then nullish (nth_error cur (c + 1))
                   (nth_error (emptyBranchLevels t) level)
      else nth_error cur (c - 1)
  end.

(** A stand-in hash for concrete runs: it spells out its two arguments. *)
Definition toyHash (l r : string) : string := "H(" ++ l ++ "," ++ r ++ ")".

Definition threeLeafTree : MerkleTree :=
  {| emptyLeaf := "E";
     depth := 2;
     emptyBranchLevels := ["E"; "H(E,E)"; "H(H(E,E),H(E,E))"];
     tree := [["L0"; "L1"; "L2"];
              ["H(L0,L1)"; "H(L2,E)"];
              ["H(H(L0,L1),H(L2,E))"]] |}.

Definition duplicateLeafTree : MerkleTree :=
  {| emptyLeaf := "E";
     depth := 2;
     emptyBranchLevels := ["E"; "H(E,E)"; "H(H(E,E),H(E,E))"];
     tree := [["L0"; "L1"; "L0"];
              ["H(L0,L1)"; "H(L0,E)"];
              ["H(H(L0,L1),H(L0,E))"]] |}.

(** Verification as the specification words it: a fold over the path in
    which bit [i] of the leaf index picks the side of the running node. *)
Fixpoint verifyFold (poseidon : string -> string -> string)
         (leafIndex : Z) (i : nat) (path : list (option string))
         (currentNode : string) : Result string :=
  match path with
  | [] => Ok currentNode
  | sibling :: rest =>
      next <- (if Z.testbit leafIndex (Z.of_nat i)
               then calculateNodeHash poseidon sibling (Some currentNode)
               else calculateNodeHash poseidon (Some currentNode) sibling) ;;
      verifyFold poseidon leafIndex (S i) rest next
  end.

(** Trees obtained from the constructor at depth [d] by [insertLeaves] calls;
    the last index counts the leaves inserted so far. *)
Inductive reachable (poseidon : string -> string -> string) (keccak : string)
          (d : nat) : MerkleTree -> nat -> Prop :=
| reach_new t :
    newMerkleTree poseidon keccak (Z.of_nat d) = Ok (Built t) ->
    reachable poseidon keccak d t 0
| reach_insert t n leaves t' :
    reachable poseidon keccak d t n ->
    insertLeaves poseidon t leaves = Ok t' ->
    reachable poseidon keccak d t' (n + length leaves).

(* ================================================================== *)
(** ** Shamir secret reconstruction (lib/shamirTools.ts) *)
(* ================================================================== *)

(** A share: the institution's index and the share value, both as the
    integers the caller passes in. *)
Definition ShamirShare : Type := (Z * Z)%type.

(** Modelled from the spec: the error of the reconstruction, raised on two
    shares with one index; [reconstructShamirSecret] of lib/shamirTools.ts
    is not among the sources at hand, only its tests are. *)
Definition MalformedShares : Exn := Error "MalformedShares".

(** Every element of a list together with the other elements, in order. *)
Fixpoint picks {A} (l : list A) : list (A * list A) :=
  match l with
  | [] => []
  | a :: rest =>
      (a, rest) :: map (fun pk => (fst pk, a :: snd pk)) (picks rest)
  end.

Section Shamir.

(** The modulus of the hash adapter's field; field elements are [Zmod p]. *)
Variable p : Z.

Definition shareX (s : ShamirShare) : Zmod p := Zmod.of_Z p (fst s).
Definition shareY (s : ShamirShare) : Zmod p := Zmod.of_Z p (snd s).

(** Modelled from the spec: the factor
    [prod_(j<>i) (0 - index_j) / (index_i - index_j)] of
    [reconstructShamirSecret] (lib/shamirTools.ts, not among the sources at
    hand) for the share with index [xi] against the [others], with field
    arithmetic throughout; a zero denominator is the failure. *)
Fixpoint basisAtZero (xi : Zmod p) (others : list ShamirShare)
  : Result (Zmod p) :=
  match others with
  | [] => Ok Zmod.one
  | o :: rest =>
      let xj := shareX o in
      if Zmod.eqb (Zmod.sub xi xj) Zmod.zero then Throw MalformedShares
      else
        b <- basisAtZero xi rest ;;
        Ok (Zmod.mul (Zmod.mdiv (Zmod.sub Zmod.zero xj) (Zmod.sub xi xj)) b)
  end.

(** Modelled from the spec: the sum [sum_i value_i * (factor of share i)] of
    [reconstructShamirSecret] (lib/shamirTools.ts, not among the sources at
    hand), over the shares paired with their others. *)
Fixpoint sumTerms (ps : list (ShamirShare * list ShamirShare))
  : Result (Zmod p) :=
  match ps with
  | [] => Ok Zmod.zero
  | pk :: rest =>
      b <- basisAtZero (shareX (fst pk)) (snd pk) ;;
      s <- sumTerms rest ;;
      Ok (Zmod.add (Zmod.mul (shareY (fst pk)) b) s)
  end.

(** Modelled from the spec: [reconstructShamirSecret(F, k, shares)] of
    lib/shamirTools.ts, which is not among the sources at hand (its tests
    are).  The secret is the Lagrange interpolation at 0 of the shares
    handed in, [sum_i value_i * prod_(j<>i) (0 - index_j) / (index_i -
    index_j)]; two shares with one index are the only failure.  The
    threshold [k] is part of the interface and does not enter the sum. *)
Definition reconstructSecret (k : nat) (shares : list ShamirShare)
  : Result Z :=
  s <- sumTerms (picks shares) ;;
  Ok (Zmod.to_Z s).

(** Modelled from the spec: the value of the sharing polynomial; the
    splitting side is a circuit that is not among the sources at hand.  A
    secret is shared with threshold [k] by a polynomial of degree [k - 1]
    whose constant coefficient is the secret. *)
Fixpoint evalPoly (coeffs : list (Zmod p)) (x : Zmod p) : Zmod p :=
  match coeffs with
  | [] => Zmod.zero
  | c :: rest => Zmod.add c (Zmod.mul x (evalPoly rest x))
  end.

(** Modelled from the spec: the share with a given index, the sharing
    polynomial's value there (the splitting circuit is not among the
    sources at hand). *)
Definition shareAt (coeffs : list Z) (index : Z) : ShamirShare :=
  (index,
   Zmod.to_Z (evalPoly (map (Zmod.of_Z p) coeffs) (Zmod.of_Z p index))).

(** Modelled from the spec: the [n] shares of a secret, with indices
    [1..n]; [higher] are the polynomial's coefficients above the constant
    one, so the threshold is [S (length higher)] (the splitting circuit is
    not among the sources at hand). *)
Definition splitSecret (secret : Z) (higher : list Z) (n : nat)
  : list ShamirShare :=
  map (fun i => shareAt (secret :: higher) (Z.of_nat i)) (seq 1 n).

(** The interpolating polynomial of a list of shares as a function: the
    Lagrange basis of one share against the others, and the weighted sum. *)
Definition basisAt (y xi : Zmod p) (others : list ShamirShare) : Zmod p :=
  fold_right
    (fun o acc =>
       Zmod.mul (Zmod.mdiv (Zmod.sub y (shareX o))
                           (Zmod.sub xi (shareX o))) acc)
    Zmod.one others.

Definition sumF {A} (f : A -> Zmod p) (l : list A) : Zmod p :=
  fold_right (fun a acc => Zmod.add (f a) acc) Zmod.zero l.

Definition lagrangeAt (shares : list ShamirShare) (y : Zmod p) : Zmod p :=
  sumF (fun pk =>
          Zmod.mul (shareY (fst pk))
                   (basisAt y (shareX (fst pk)) (snd pk)))
       (picks shares).

(** Functions given by at most [n] coefficients. *)
Definition polyFn (n : nat) (f : Zmod p -> Zmod p) : Prop :=
  exists coeffs, length coeffs <= n /\ forall y, f y = evalPoly coeffs y.

End Shamir.

(* ================================================================== *)
(** ** The verifier contracts' time check *)
(* ================================================================== *)

(** Modelled from the spec: the tolerance of the time check, 30 minutes in
    seconds; the verifier contracts' [verifyProof] is not among the sources
    at hand, only its tests are. *)
Definition timeDifferenceTolerance : Z := 30 * 60.

(** Modelled from the spec: the error of a failed time check, with the
    revert message the contracts' tests expect. *)
Definition TimeOutOfBounds : Exn := Error "the current time is incorrect".

(** Modelled from the spec: the time check of the verifier contracts'
    [verifyProof] (not among the sources at hand).  With [T] the chain time
    and [publicTime] the time among the proof's public outputs, both in
    seconds, the proof passes when [|T - publicTime| <= tolerance]. *)
Definition timeCheck (T publicTime : Z) : Result unit :=
  if (Z.abs (T - publicTime) <=? timeDifferenceTolerance)%Z
  then Ok tt
  else Throw TimeOutOfBounds.

(* ================================================================== *)
(** ** snap/src/index.ts: the [ImportZkCert] request *)
(* ================================================================== *)

Record HolderData : Type := mkHolderData {
  holder_holderCommitment : string;
  holder_eddsaKey : string
}.

(** A stored zkCert: the two fields the request handler compares, and the
    rest of the certificate's JSON. *)
Record ZkCert : Type := mkZkCert {
  holderCommitment : string;
  leafHash : string;
  certificateBody : string
}.

(** The persisted snap state, read by [getState] and replaced by
    [saveState]. *)
Record SnapState : Type := mkSnapState {
  holders : list HolderData;
  zkCerts : list ZkCert
}.

Record ImportRequestParams : Type := mkImportRequestParams {
  zkCert : ZkCert;
  listZkCerts : option bool
}.

(** What the handler returns: the two [RpcResponseMsg] values of this case,
    or [Overview certs] for the value of [getZkCertStorageOverview(certs)]. *)
Inductive RpcReturn : Type :=
| ZkCertAlreadyImported
| ZkCertImported
| Overview (certs : list ZkCert).

Definition HolderNotFound (commitment : string) : Exn :=
  Error ("Could not find Holder for commitment " ++ commitment
         ++ ". Please use Metamask with the same mnemonic as when you created this holder commitment.").

Section Snap.

(** The text of [RpcResponseErr.RejectedConfirm]; the enumeration is
    declared outside the sources at hand. *)
Variable RejectedConfirm : string.

(** [case RpcMethods.ImportZkCert] of [processRpcRequest].  [persisted] is
    the state [getState] returns; [confirm] is the user's answer to the
    confirmation dialog, should it be shown.  The result pairs what the
    handler returns or throws with the state persisted afterwards. *)
Definition processRpcRequest_ImportZkCert
           (persisted : SnapState) (importParams : ImportRequestParams)
           (confirm : bool) : Result RpcReturn * SnapState :=
  let state := persisted in
  let searchedHolder :=
    find (fun candidate =>
            String.eqb (holder_holderCommitment candidate)
                       (holderCommitment (zkCert importParams)))
         (holders state) in
  match searchedHolder with
  | None =>
      (Throw (HolderNotFound (holderCommitment (zkCert importParams))),
       persisted)
  | Some _ =>
      let listZkCertsFlag :=
        match listZkCerts importParams with
        | Some b => b
        | None => false
        end in
      let searchedZkCert :=
        find (fun candidate =>
                String.eqb (leafHash candidate)
                           (leafHash (zkCert importParams)))
             (zkCerts state) in
      match searchedZkCert with
      | Some _ => (Ok ZkCertAlreadyImported, persisted)
      | None =>
          if negb confirm then (Throw (Error RejectedConfirm), persisted)
          else
            let state' :=
              {| holders := holders state;
                 zkCerts := zkCerts state ++ [zkCert importParams] |} in
            (if listZkCertsFlag
             then Ok (Overview (zkCerts state'))
             else Ok ZkCertImported,
             state')
      end
  end.

End Snap.

Definition storedCert : ZkCert :=
  {| holderCommitment := "A"; leafHash := "L"; certificateBody := "kyc" |}.

Definition oneCertState : SnapState :=
  {| holders := [{| holder_holderCommitment := "A";
                    holder_eddsaKey := "key" |}];
     zkCerts := [storedCert] |}.

Definition sameLeafOtherHolder : ImportRequestParams :=
  {| zkCert := {| holderCommitment := "B"; leafHash := "L";
                  certificateBody := "kyc" |};
     listZkCerts := None |}.

(* ================================================================== *)
(** ** snap/src/zkCertHandler.ts and the other requests of index.ts *)
(* ================================================================== *)

(** A plain object made by [{}] and used as a map from strings: its own
    properties, listed as they were first assigned; no read depends on the
    order.  [getProp o k] is the own property [k] ([None] if the object has
    none) and [setProp o k v] defines or overwrites it. *)
Fixpoint getProp {V} (o : list (string * V)) (k : string) : option V :=
  match o with
  | [] => None
  | (k', v) :: rest => if String.eqb k' k then Some v else getProp rest k
  end.

Fixpoint setProp {V} (o : list (string * V)) (k : string) (v : V)
  : list (string * V) :=
  match o with
  | [] => [(k, v)]
  | (k', v') :: rest =>
      if String.eqb k' k then (k, v) :: rest
      else (k', v') :: setProp rest k v
  end.

(** What an object made by [{}] inherits from [Object.prototype] as the
    language sets it up: the built-in functions, of which [constructor] is
    the function [Object], and the accessor [__proto__], which yields the
    prototype itself. *)
Inductive Inherited : Type :=
| BuiltinFunction (name : string)
| ThePrototype.

Definition objectPrototype (k : string) : option Inherited :=
  if String.eqb k "constructor" then Some (BuiltinFunction "Object")
  else if String.eqb k "__proto__" then Some ThePrototype
  else if existsb (String.eqb k)
            ["__defineGetter__"; "__defineSetter__"; "hasOwnProperty";
             "__lookupGetter__"; "__lookupSetter__"; "isPrototypeOf";
             "propertyIsEnumerable"; "toString"; "valueOf";
             "toLocaleString"]
       then Some (BuiltinFunction k)
  else None.

(** The value of the expression [o[k]]: the own property if there is one,
    else what the prototype has under [k], else [undefined]. *)
Inductive PropertyValue (V : Type) : Type :=
| OwnValue (v : V)
| InheritedValue (inherited : Inherited)
| Undefined.

Arguments OwnValue {V} v.
Arguments InheritedValue {V} inherited.
Arguments Undefined {V}.

Definition readProp {V} (o : list (string * V)) (k : string)
  : PropertyValue V :=
  match getProp o k with
  | Some v => OwnValue v
  | None =>
      match objectPrototype k with
      | Some inherited => InheritedValue inherited
      | None => Undefined
      end
  end.

(** The assignment [o[k] = v] of a string [v].  Under [__proto__] it runs
    the prototype's setter, which ignores a value that is neither an object
    nor [null]; under any other key it defines or overwrites an own
    property. *)
Definition assignString (o : list (string * string)) (k v : string)
  : list (string * string) :=
  if String.eqb k "__proto__" then o else setProp o k v.

(** One entry of the storage overview. *)
Record DisclosureData : Type := mkDisclosureData {
  providerPubKey : string * string;
  disclosedExpirationDate : option Z;
  disclosedVerificationLevel : option string
}.

(** The requests [processRpcRequest] distinguishes, with the parameters its
    control flow reads. *)
Inductive RpcRequest : Type :=
| GenZkKycProof (userAddress : option string) (zkCertStandard : option string)
| ClearStorage
| ImportZkCert (importParams : ImportRequestParams)
| ExportZkCert
| GetHolderCommitment
| ListZkCerts
| GetZkCertStorageHashes
| GetZkCertHash
| UpdateMerkleProof (proofs : list MerkleProof)
| DeleteZkCert
| OtherMethod (method : string).

(** What a request returns. *)
Inductive RpcResponse : Type :=
| ImportResponse (r : RpcReturn)
| ProofResponse (proof : string)
| StorageCleared
| ExportedZkCert (zkCertStorageData : option ZkCert)
| HolderCommitmentResponse (holderCommitment : string)
| OverviewResponse (sharedZkCerts : list (string * list DisclosureData))
| StorageHashesResponse (storageHashes : list (string * string))
| LeafHashesResponse (leafHashes : list string)
| MerkleProofsUpdated
| ZkCertDeleted.

(** What the world outside the handler contributes to one request: the
    user's answer to the confirmation dialog and the outcome of
    [selectZkCert], each used if the request gets that far. *)
Record Interaction : Type := mkInteraction {
  dialogAnswer : bool;
  selectZkCertOutcome : Result ZkCert
}.

Definition ZkCertNotInWallet (leafHash : string) : Exn :=
  Error ("The zkCert with leaf hash " ++ leafHash
         ++ " was not found in the wallet. Please import it before updating the Merkle proof.").

Section SnapHandler.

(** Texts of the [RpcResponseErr] enumeration, declared outside the sources
    at hand. *)
Variable RejectedConfirm : string.
Variable MissingHolder : string.
Variable UnknownMethod : string.

(** Fields of a stored zkCert that sit in the rest of its JSON:
    [zkCertStandard], [providerData.ax] and [.ay], [content.expirationDate]
    and [content.verificationLevel]; the value of [ZkCertStandard.zkKYC];
    [JSON.stringify] of a zkCert and [keccak256] of js-sha3; the text a
    built-in function of the given name converts to, which the language
    leaves to the engine; the effect of the assignment
    [zkCert.merkleProof = merkleProof] on the rest of the JSON; and
    [generateZkKycProof] of proofGenerator.ts, given user address, standard,
    the selected zkCert, its holder and the stored zkCert. *)
Variable zkCertStandardOf : ZkCert -> string.
Variable providerAx providerAy : ZkCert -> string.
Variable expirationDateOf : ZkCert -> Z.
Variable verificationLevelOf : ZkCert -> string.
Variable ZkCertStandard_zkKYC : string.
Variable stringify : ZkCert -> string.
Variable keccak256 : string -> string.
Variable nativeFunctionText : string -> string.
Variable withMerkleProof : string -> MerkleProof -> string.
Variable generateZkKycProof :
  string -> string -> ZkCert -> HolderData -> ZkCert -> Result string.

(** What an inherited value becomes where a string is expected: the text of
    the function, or ["[object Object]"] for the prototype. *)
Definition inheritedText (inherited : Inherited) : string :=
  match inherited with
  | BuiltinFunction name => nativeFunctionText name
  | ThePrototype => "[object Object]"
  end.

(** The [disclosureData] object [getZkCertStorageOverview] builds for one
    zkCert. *)
Definition disclosureData (zkCert : ZkCert) : DisclosureData :=
  let isKYC := String.eqb (zkCertStandardOf zkCert) ZkCertStandard_zkKYC in
  {| providerPubKey := (providerAx zkCert, providerAy zkCert);
     disclosedExpirationDate :=
       if isKYC then Some (expirationDateOf zkCert) else None;
     disclosedVerificationLevel :=
       if isKYC then Some (verificationLevelOf zkCert) else None |}.

(** [getZkCertStorageOverview(zkCertStorage)].  The array is assigned only
    where the read gave [undefined], so never under an inherited name.  The
    call [.push(disclosureData)] appends to an own array; on an inherited
    function or on the prototype, which have no [push], and on [undefined]
    it is a [TypeError]. *)
Definition getZkCertStorageOverview (zkCertStorage : list ZkCert)
  : Result (list (string * list DisclosureData)) :=
  forEach zkCertStorage []
    (fun sharedZkCerts zkCert =>
       let standard := zkCertStandardOf zkCert in
       let sharedZkCerts :=
         match readProp sharedZkCerts standard with
         | Undefined => setProp sharedZkCerts standard []
         | _ => sharedZkCerts
         end in
       match readProp sharedZkCerts standard with
       | OwnValue entries =>
           Ok (setProp sharedZkCerts standard
                       (entries ++ [disclosureData zkCert]))
       | InheritedValue _ => Throw TypeError
       | Undefined => Throw TypeError
       end).

(** [getZkCertStorageHashes(zkCertStorage, origin)]; the result holds the
    own properties of the object returned.  The salted start
    [keccak256(origin)] is assigned only where the read gave [undefined].
    Concatenation converts what the second read gives to a string; for
    [undefined] that would be ["undefined"]. *)
Definition getZkCertStorageHashes (zkCertStorage : list ZkCert)
           (origin : string) : list (string * string) :=
  fold_left
    (fun storageHashes zkCert =>
       let standard := zkCertStandardOf zkCert in
       let storageHashes :=
         match readProp storageHashes standard with
         | Undefined => setProp storageHashes standard (keccak256 origin)
         | _ => storageHashes
         end in
       let previous :=
         match readProp storageHashes standard with
         | OwnValue h => h
         | InheritedValue inherited => inheritedText inherited
         | Undefined => "undefined"
         end in
       assignString storageHashes standard
                    (keccak256 (previous ++ stringify zkCert)))
    zkCertStorage [].

(** The inner loop of the [UpdateMerkleProof] case: the first stored zkCert
    with the proof's leaf gets the proof; [None] when [foundZkCert] stays
    [false]. *)
Fixpoint updateFirstMatch (certs : list ZkCert) (merkleProof : MerkleProof)
  : option (list ZkCert) :=
  match certs with
  | [] => None
  | zkCert :: rest =>
      if String.eqb (leafHash zkCert) (leaf merkleProof)
      then Some ({| holderCommitment := holderCommitment zkCert;
                    leafHash := leafHash zkCert;
                    certificateBody :=
                      withMerkleProof (certificateBody zkCert) merkleProof |}
                 :: rest)
      else match updateFirstMatch rest merkleProof with
           | Some rest' => Some (zkCert :: rest')
           | None => None
           end
  end.

(** [processRpcRequest({origin, request}, snap)].  [persisted] is the state
    [getState] returns; the result pairs what the handler returns or throws
    with the state persisted afterwards, which differs from [persisted]
    only where [saveState] has been reached.  In the [ImportZkCert] case
    [Overview certs] stands for the call [getZkCertStorageOverview(certs)]
    made after [saveState]; it is evaluated here. *)
Definition processRpcRequest (persisted : SnapState) (origin : string)
           (request : RpcRequest) (world : Interaction)
  : Result RpcResponse * SnapState :=
  let state := persisted in
  let confirm := dialogAnswer world in
  match request with
  | GenZkKycProof userAddress zkCertStandard =>
      match userAddress, zkCertStandard with
      | None, _ =>
          (Throw (Error "userAddress missing in request parameters."),
           persisted)
      | Some _, None =>
          (Throw (Error "ZkCert standard missing in request parameters."),
           persisted)
      | Some address, Some standard =>
          if negb confirm then (Throw (Error RejectedConfirm), persisted)
          else
            match selectZkCertOutcome world with
            | Throw e => (Throw e, persisted)
            | Ok zkCert =>
                match find (fun candidate =>
                              String.eqb (holder_holderCommitment candidate)
                                         (holderCommitment zkCert))
                           (holders state) with
                | None =>
                    (Throw (Error ("Holder for commitment "
                                   ++ holderCommitment zkCert
                                   ++ " could not be found. Please use Metamask with the same mnemonic as when you created this holder commitment.")),
                     persisted)
                | Some holder =>
                    match find (fun cert =>
                                  String.eqb (leafHash cert) (leafHash zkCert))
                               (zkCerts state) with
                    | None =>
                        (Throw (Error ("zkCert with leafHash "
                                       ++ leafHash zkCert
                                       ++ " could not be found.")),
                         persisted)
                    | Some searchedZkCert =>
                        (proof <- generateZkKycProof address standard zkCert
                                    holder searchedZkCert ;;
                         Ok (ProofResponse proof),
                         persisted)
                    end
                end
            end
      end
  | ClearStorage =>
      if negb confirm then (Throw (Error RejectedConfirm), persisted)
      else (Ok StorageCleared, {| holders := []; zkCerts := [] |})
  | ImportZkCert importParams =>
      let (outcome, saved) :=
        processRpcRequest_ImportZkCert RejectedConfirm persisted importParams
                                       confirm in
      (r <- outcome ;;
       match r with
       | Overview certs =>
           sharedZkCerts <- getZkCertStorageOverview certs ;;
           Ok (OverviewResponse sharedZkCerts)
       | _ => Ok (ImportResponse r)
       end,
       saved)
  | ExportZkCert =>
      if negb confirm then (Throw (Error RejectedConfirm), persisted)
      else
        match selectZkCertOutcome world with
        | Throw e => (Throw e, persisted)
        | Ok zkCertForExport =>
            (Ok (ExportedZkCert
                   (find (fun cert =>
                            String.eqb (leafHash cert)
                                       (leafHash zkCertForExport))
                         (zkCerts state))),
             persisted)
        end
  | GetHolderCommitment =>
      match holders state with
      | [] => (Throw (Error MissingHolder), persisted)
      | holder :: _ =>
          if negb confirm then (Throw (Error RejectedConfirm), persisted)
          else (Ok (HolderCommitmentResponse (holder_holderCommitment holder)),
                persisted)
      end
  | ListZkCerts =>
      if negb confirm then (Throw (Error RejectedConfirm), persisted)
      else
        (sharedZkCerts <- getZkCertStorageOverview (zkCerts state) ;;
         Ok (OverviewResponse sharedZkCerts),
         persisted)
  | GetZkCertStorageHashes =>
      (Ok (StorageHashesResponse
             (getZkCertStorageHashes (zkCerts state) origin)),
       persisted)
  | GetZkCertHash =>
      if negb confirm then (Throw (Error RejectedConfirm), persisted)
      else (Ok (LeafHashesResponse (map leafHash (zkCerts state))), persisted)
  | UpdateMerkleProof proofs =>
      if negb confirm then (Throw (Error RejectedConfirm), persisted)
      else
        match forEach proofs (zkCerts state)
                (fun certs merkleProof =>
                   match updateFirstMatch certs merkleProof with
                   | Some certs' => Ok certs'
                   | None => Throw (ZkCertNotInWallet (leaf merkleProof))
                   end) with
        | Throw e => (Throw e, persisted)
        | Ok certs =>
            (Ok MerkleProofsUpdated,
             {| holders := holders state; zkCerts := certs |})
        end
  | DeleteZkCert =>
      match selectZkCertOutcome world with
      | Throw e => (Throw e, persisted)
      | Ok zkCertToDelete =>
          if negb confirm then (Throw (Error RejectedConfirm), persisted)
          else
            (Ok ZkCertDeleted,
             {| holders := holders state;
                zkCerts :=
                  filter (fun zkCert =>
                            negb (String.eqb (leafHash zkCert)
                                             (leafHash zkCertToDelete)))
                         (zkCerts state) |})
      end
  | OtherMethod _ => (Throw (Error UnknownMethod), persisted)
  end.

(** A session: requests handled one after the other, each on the state the
    previous one persisted. *)
Fixpoint processAll (persisted : SnapState)
         (session : list (string * RpcRequest * Interaction)) : SnapState :=
  match session with
  | [] => persisted
  | (origin, request, world) :: rest =>
      processAll (snd (processRpcRequest persisted origin request world)) rest
  end.

End SnapHandler.

(** The requests that reach [saveState]. *)
Definition changesStorage (request : RpcRequest) : bool :=
  match request with
  | ClearStorage | ImportZkCert _ | UpdateMerkleProof _ | DeleteZkCert => true
  | _ => false
  end.

(** Stand-ins for the parameters of the handler in concrete runs: the body
    of a zkCert doubles as its standard and its leafHash as its JSON text,
    hashes are spelled out. *)
Definition demoKeccak (s : string) : string := "k(" ++ s ++ ")".

Definition demoNativeText (name : string) : string :=
  "function " ++ name ++ "() { [native code] }".

Definition demoWithProof (body : string) (merkleProof : MerkleProof)
  : string := body ++ "+" ++ leaf merkleProof.

Definition demoGenerate (address standard : string) (zkCert : ZkCert)
           (holder : HolderData) (stored : ZkCert) : Result string :=
  Ok "proof".

Definition demoHandle :=
  processRpcRequest "rejected" "missing holder" "unknown method"
    certificateBody (fun _ => "ax") (fun _ => "ay") (fun _ => 0%Z)
    (fun _ => "1") "kyc" leafHash demoKeccak demoNativeText
              demoWithProof
    demoGenerate.

Definition demoHandleAll :=
  processAll "rejected" "missing holder" "unknown method"
    certificateBody (fun _ => "ax") (fun _ => "ay") (fun _ => 0%Z)
    (fun _ => "1") "kyc" leafHash demoKeccak demoNativeText
              demoWithProof
    demoGenerate.

Definition newCert : ZkCert :=
  {| holderCommitment := "A"; leafHash := "M"; certificateBody := "twitter" |}.

(** A zkCert whose standard is the name of an inherited property. *)
Definition inheritedNameCert : ZkCert :=
  {| holderCommitment := "A"; leafHash := "P";
     certificateBody := "constructor" |}.

Definition demoOverview :=
  getZkCertStorageOverview certificateBody (fun _ => "ax") (fun _ => "ay")
    (fun _ => 0%Z) (fun _ => "1") "kyc".

Definition confirmed (selected : ZkCert) : Interaction :=
  {| dialogAnswer := true; selectZkCertOutcome := Ok selected |}.

Definition noHolderState : SnapState :=
  {| holders := []; zkCerts := [storedCert] |}.

(* ================================================================== *)
(** ** Loops and array reads *)
(* ================================================================== *)

Lemma forEach_app {S A} (xs ys : list A) (s : S) body :
  forEach (xs ++ ys) s body = (s' <- forEach xs s body ;; forEach ys s' body).
Proof.
  revert s; induction xs as [|x xs IH]; intros s; simpl; [reflexivity|].
  destruct (body s x); simpl; auto.
Qed.

Lemma forEach_snoc {S A} (xs : list A) (x : A) (s : S) body :
  forEach (xs ++ [x]) s body = (s' <- forEach xs s body ;; body s' x).
Proof.
  rewrite forEach_app. destruct (forEach xs s body); simpl; [|reflexivity].
  destruct (body a x); reflexivity.
Qed.

Lemma at_of_nat {A} (a : list A) (i : nat) :
  at_ a (Z.of_nat i) = nth_error a i.
Proof.
  unfold at_. destruct (Z.ltb_spec (Z.of_nat i) 0); [lia|].
  now rewrite Nat2Z.id.
Qed.

Lemma setAt_length_le {A} (a : list A) i v :
  i < length a -> length (setAt a i v) = length a.
Proof.
  intros Hi. unfold setAt. rewrite length_app, length_firstn.
  cbn [length]. rewrite length_skipn. lia.
Qed.

(** Linear arithmetic with division and remainder by constants. *)
Ltac dlia := zify; Z.to_euclidean_division_equations; lia.

Lemma parity_cases c :
  (Nat.even c = true /\ c mod 2 = 0) \/ (Nat.even c = false /\ c mod 2 = 1).
Proof.
  destruct (Nat.even c) eqn:E.
  - left. split; [reflexivity|].
    apply Nat.even_spec in E. destruct E as [m ->]. dlia.
  - right. split; [reflexivity|].
    destruct (Nat.eq_dec (c mod 2) 0) as [H0|H0]; [|dlia].
    assert (Nat.even c = true) as E'
      by (apply Nat.even_spec; exists (c / 2); dlia).
    congruence.
Qed.

Lemma isNodeOnRight_odd (i k : nat) :
  isNodeOnRight (Z.of_nat i) k = negb (Nat.even (i / 2 ^ k)).
Proof.
  unfold isNodeOnRight. rewrite Z.shiftr_div_pow2 by lia.
  replace (Z.of_nat i / 2 ^ Z.of_nat k)%Z with (Z.of_nat (i / 2 ^ k))
    by (rewrite Nat2Z.inj_div, Nat2Z.inj_pow; reflexivity).
  destruct (parity_cases (i / 2 ^ k)) as [[-> H]|[-> H]]; cbn [negb].
  - apply Z.eqb_neq. dlia.
  - apply Z.eqb_eq. dlia.
Qed.

(** Two elements at a time. *)
Lemma list_pair_ind {A} (P : list A -> Prop) :
  P [] -> (forall a, P [a]) ->
  (forall a b l, P l -> P (a :: b :: l)) ->
  forall l, P l.
Proof.
  intros H0 H1 H2.
  assert (forall l, P l /\ forall a, P (a :: l)) as H.
  { induction l as [|x l [IHa IHb]]; split; auto. }
  intros l; apply H.
Qed.

(* -- indexOf -------------------------------------------------------- *)

Lemma indexOf_range a x : (-1 <= indexOf a x < Z.of_nat (length a))%Z.
Proof.
  induction a as [|y a IH]; simpl; [lia|].
  destruct (String.eqb y x); [lia|].
  destruct (Z.eqb_spec (indexOf a x) (-1)); lia.
Qed.

Lemma indexOf_absent a x : indexOf a x = (-1)%Z <-> ~ In x a.
Proof.
  induction a as [|y a IH]; simpl; [tauto|].
  destruct (String.eqb_spec y x) as [->|Hne].
  - split; [discriminate|tauto].
  - pose proof (indexOf_range a x).
    destruct (Z.eqb_spec (indexOf a x) (-1)) as [E|E].
    + split; [|reflexivity]. intros _ [Hx|Hx]; [congruence|]. now apply IH.
    + split; [lia|]. intros Hx. exfalso. apply E, IH. tauto.
Qed.

(** [indexOf] finds the first occurrence. *)
Lemma indexOf_first a x i :
  indexOf a x = Z.of_nat i ->
  nth_error a i = Some x /\ forall j, j < i -> nth_error a j <> Some x.
Proof.
  revert i; induction a as [|y a IH]; simpl; intros i Hi; [lia|].
  destruct (String.eqb_spec y x) as [->|Hne].
  - assert (i = 0) as -> by lia. split; [reflexivity|]. intros j Hj; lia.
  - destruct (Z.eqb_spec (indexOf a x) (-1)) as [E|E]; [lia|].
    destruct i as [|i]; [pose proof (indexOf_range a x); lia|].
    destruct (IH i ltac:(lia)) as [H1 H2]. split; [exact H1|].
    intros [|j] Hj; simpl; [congruence|]. apply H2. lia.
Qed.

Lemma isNodeOnRight_testbit (idx : Z) (i : nat) :
  (0 <= idx)%Z -> isNodeOnRight idx i = Z.testbit idx (Z.of_nat i).
Proof.
  intros Hidx. unfold isNodeOnRight.
  rewrite Z.rem_mod_nonneg; [| apply Z.shiftr_nonneg; lia | lia].
  rewrite Z.testbit_odd, Zodd_mod. reflexivity.
Qed.

Lemma isNodeOnRight_negative (idx : Z) (i : nat) :
  (idx < 0)%Z -> isNodeOnRight idx i = false.
Proof.
  intros Hidx. unfold isNodeOnRight. apply Z.eqb_neq.
  assert (Z.shiftr idx (Z.of_nat i) < 0)%Z as Hs
    by (apply Z.shiftr_neg; lia).
  pose proof (Z.rem_nonpos (Z.shiftr idx (Z.of_nat i)) 2). lia.
Qed.

(** The loop of [getMerkleRootFromProof], run on the tail [rest] of a path
    whose first [length done] elements are consumed, is the fold on [rest]
    started at level [length done]. *)
Lemma verifyLoop_is_fold poseidon (idx : Z) :
  (0 <= idx)%Z ->
  forall done rest node,
    forEach (seq (length done) (length rest)) node
      (fun currentNode i =>
         if isNodeOnRight idx i
         then calculateNodeHash poseidon (read (done ++ rest) i)
                                (Some currentNode)
         else calculateNodeHash poseidon (Some currentNode)
                                (read (done ++ rest) i))
    = verifyFold poseidon idx (length done) rest node.
Proof.
  intros Hidx done rest. revert done.
  induction rest as [|s rest IH]; intros done node; [reflexivity|].
  cbn [length seq forEach verifyFold].
  rewrite isNodeOnRight_testbit by exact Hidx.
  unfold read at 1 2. rewrite nth_error_app2 by lia.
  rewrite Nat.sub_diag. cbn [nth_error].
  assert (forall r : Result string,
             (s' <- r ;;
              forEach (seq (S (length done)) (length rest)) s'
                (fun currentNode i =>
                   if isNodeOnRight idx i
                   then calculateNodeHash poseidon
                          (read (done ++ s :: rest) i) (Some currentNode)
                   else calculateNodeHash poseidon (Some currentNode)
                          (read (done ++ s :: rest) i)))
             = (next <- r ;;
                verifyFold poseidon idx (S (length done)) rest next)) as Hk.
  { intros [next|e]; cbn [bind]; [|reflexivity].
    specialize (IH (done ++ [s]) next).
    rewrite length_app, Nat.add_1_r in IH. cbn [length] in IH.
    rewrite <- app_assoc in IH. exact IH. }
  destruct (Z.testbit idx (Z.of_nat (length done))); apply Hk.
Qed.

(* ================================================================== *)
(** ** The tree in closed form *)
(* ================================================================== *)

Section MerkleFacts.
Variable poseidon : string -> string -> string.
Variable keccak : string.

Local Notation "'eh'" := (emptyHashes poseidon).
Local Notation "'par'" := (parents poseidon).
Local Notation "'lvl'" := (levelAt poseidon).

Lemma emptyLoop_closed e k m :
  forEach (seq (S k) m) (map (eh e) (seq 0 (S k)))
    (fun levels i =>
       h <- calculateNodeHash poseidon (at_ levels (Z.of_nat i - 1))
                              (at_ levels (Z.of_nat i - 1)) ;;
       Ok (levels ++ [h]))
  = Ok (map (eh e) (seq 0 (S k + m))).
Proof.
  revert k; induction m as [|m IH]; intros k.
  - now rewrite Nat.add_0_r.
  - change (seq (S k) (S m)) with (S k :: seq (S (S k)) m).
    cbn [forEach].
    replace (Z.of_nat (S k) - 1)%Z with (Z.of_nat k) by lia.
    rewrite at_of_nat, nth_error_map, nth_error_seq.
    destruct (Nat.ltb_spec k (S k)); [|lia].
    cbn [option_map calculateNodeHash bind Nat.add].
    replace (map (eh e) (seq 0 (S k)) ++ [poseidon (eh e k) (eh e k)])
      with (map (eh e) (seq 0 (S (S k)))).
    + rewrite IH. do 3 f_equal. lia.
    + rewrite (seq_S (S k)), map_app. reflexivity.
Qed.

Lemma calculateEmptyBranchHashes_closed e (d : nat) :
  calculateEmptyBranchHashes poseidon e (Z.of_nat d)
  = Ok (map (eh e) (seq 0 (S d))).
Proof.
  unfold calculateEmptyBranchHashes. rewrite Nat2Z.id.
  exact (emptyLoop_closed e 0 d).
Qed.

Lemma newMerkleTree_closed (d : nat) :
  newMerkleTree poseidon keccak (Z.of_nat d)
  = Ok (Built (freshTree poseidon keccak d)).
Proof.
  unfold newMerkleTree. rewrite calculateEmptyBranchHashes_closed.
  cbn [bind]. destruct (Z.ltb_spec (Z.of_nat d + 1) 0); [lia|].
  rewrite at_of_nat, nth_error_map, nth_error_seq.
  destruct (Nat.ltb_spec d (S d)); [|lia].
  cbn [option_map Nat.add]. now rewrite Nat2Z.id.
Qed.

(* -- one level ---------------------------------------------------- *)

Lemma hashLoop_closed e (rest : list string) :
  forall pre acc,
    Nat.even (length pre) = true ->
    forEach (filter Nat.even (seq (length pre) (length rest))) acc
      (fun above pos =>
         h <- calculateNodeHash poseidon
                (nth_error (pre ++ rest) pos)
                (nullish (nth_error (pre ++ rest) (pos + 1)) (Some e)) ;;
         Ok (above ++ [h]))
    = Ok (acc ++ par e rest).
Proof.
  induction rest as [|a|a b rest IH] using list_pair_ind; intros pre acc Hev.
  - simpl. now rewrite app_nil_r.
  - cbn [length seq filter]. rewrite Hev. cbn [forEach].
    rewrite nth_error_app2 by lia. rewrite Nat.sub_diag.
    rewrite nth_error_app2 by lia.
    replace (length pre + 1 - length pre) with 1 by lia.
    reflexivity.
  - cbn [length seq filter]. rewrite Hev.
    rewrite Nat.even_succ, <- Nat.negb_even, Hev. cbn [negb forEach].
    rewrite nth_error_app2 by lia. rewrite Nat.sub_diag.
    rewrite nth_error_app2 by lia.
    replace (length pre + 1 - length pre) with 1 by lia.
    cbn [nth_error nullish calculateNodeHash bind parents].
    specialize (IH (pre ++ [a; b]) (acc ++ [poseidon a b])).
    rewrite length_app in IH. cbn [length] in IH.
    replace (length pre + 2) with (S (S (length pre))) in IH by lia.
    rewrite <- app_assoc in IH. cbn [app] in IH.
    rewrite IH.
    + now rewrite <- app_assoc.
    + now rewrite Nat.even_succ_succ.
Qed.

Lemma hashLevel_closed e cur :
  hashLevel poseidon cur (Some e) = Ok (par e cur).
Proof.
  exact (hashLoop_closed e cur [] [] eq_refl).
Qed.

Lemma parents_length e cur : length (par e cur) = (length cur + 1) / 2.
Proof.
  induction cur as [|a|a b rest IH] using list_pair_ind; try reflexivity.
  cbn [parents length]. rewrite IH.
  replace (S (S (length rest)) + 1) with (length rest + 1 + 1 * 2) by lia.
  rewrite Nat.div_add by lia. lia.
Qed.

(** Entry [p] of the level above: the hash of entries [2p] and [2p+1],
    the latter replaced by [e] when it is missing. *)
Lemma parents_nth e p :
  forall cur,
    nth_error (par e cur) p =
    match nth_error cur (2 * p) with
    | Some a =>
        Some (poseidon a (match nth_error cur (2 * p + 1) with
                          | Some b => b
                          | None => e
                          end))
    | None => None
    end.
Proof.
  induction p as [|p IH]; intros [|a [|b rest]]; try reflexivity.
  - replace (2 * S p) with (S (S (2 * p))) by lia. simpl.
    now destruct p.
  - replace (2 * S p) with (S (S (2 * p))) by lia.
    cbn [parents nth_error Nat.add]. apply IH.
Qed.

Lemma ceilDiv_step n m :
  0 < m -> (ceilDiv n m + 1) / 2 = ceilDiv n (2 * m).
Proof.
  intros Hm. unfold ceilDiv.
  replace ((n + m - 1) / m + 1) with ((n + m - 1 + 1 * m) / m)
    by (rewrite Nat.div_add by lia; reflexivity).
  rewrite Nat.Div0.div_div. f_equal; lia.
Qed.

Lemma pow2_pos k : 0 < 2 ^ k.
Proof. induction k; simpl; lia. Qed.

Lemma levelAt_length e leaves l :
  length (lvl e leaves l) = ceilDiv (length leaves) (2 ^ l).
Proof.
  induction l as [|l IH].
  - unfold ceilDiv. change (2 ^ 0) with 1. rewrite Nat.div_1_r.
    cbn [levelAt]. lia.
  - cbn [levelAt]. rewrite parents_length, IH.
    rewrite ceilDiv_step by apply pow2_pos. reflexivity.
Qed.

(* -- the whole tree ------------------------------------------------ *)

Lemma rebuild_closed e d level0 k :
  forall tr0,
    k <= d ->
    length tr0 = S d ->
    nth_error tr0 0 = Some level0 ->
    forEach (seq 0 k) tr0
      (fun tr level =>
         match nth_error tr level with
         | None => Throw TypeError
         | Some cur =>
             above <- hashLevel poseidon cur
                        (nth_error (map (eh e) (seq 0 (S d))) level) ;;
             Ok (setAt tr (level + 1) above)
         end)
    = Ok (map (lvl e level0) (seq 0 (S k)) ++ skipn (S k) tr0).
Proof.
  intros tr0 Hk Hlen H0. induction k as [|k IH].
  - destruct tr0 as [|x rest]; [discriminate|].
    simpl in H0. injection H0 as ->. reflexivity.
  - rewrite seq_S, forEach_snoc, IH by lia. cbn [bind Nat.add].
    rewrite nth_error_app1 by (rewrite length_map, length_seq; lia).
    rewrite nth_error_map, nth_error_seq.
    destruct (Nat.ltb_spec k (S k)); [|lia]. cbn [option_map Nat.add].
    rewrite nth_error_map, nth_error_seq.
    destruct (Nat.ltb_spec k (S d)); [|lia]. cbn [option_map Nat.add].
    rewrite hashLevel_closed. cbn [bind]. f_equal.
    unfold setAt.
    rewrite firstn_app, skipn_app, length_map, length_seq.
    replace (k + 1 - S k) with 0 by lia.
    replace (S (k + 1) - S k) with 1 by lia.
    rewrite firstn_all2 by (rewrite length_map, length_seq; lia).
    rewrite (skipn_all2 (n := S (k + 1)))
      by (rewrite length_map, length_seq; lia).
    rewrite skipn_skipn. cbn [firstn app].
    rewrite (seq_S (S k)), map_app, <- !app_assoc. reflexivity.
Qed.

Lemma insertLeaves_closed t level0 leaves :
  wellFormed poseidon t ->
  nth_error (tree t) 0 = Some level0 ->
  leaves <> [] ->
  insertLeaves poseidon t leaves
  = Ok {| emptyLeaf := emptyLeaf t;
          depth := depth t;
          emptyBranchLevels := emptyBranchLevels t;
          tree := map (lvl (emptyLeaf t) (level0 ++ leaves))
                      (seq 0 (S (depth t))) |}.
Proof.
  intros [Hebl Hlen] H0 Hne. unfold insertLeaves.
  destruct leaves as [|x leaves]; [congruence|]. cbn [length Nat.eqb].
  rewrite H0, Hebl.
  rewrite rebuild_closed with (level0 := level0 ++ x :: leaves).
  - cbn [bind]. rewrite skipn_all2, app_nil_r; [reflexivity|].
    rewrite setAt_length_le; lia.
  - lia.
  - rewrite setAt_length_le; lia.
  - reflexivity.
Qed.

Lemma insertLeaves_nil t : insertLeaves poseidon t [] = Ok t.
Proof. reflexivity. Qed.

Lemma wellFormed_fresh d : wellFormed poseidon (freshTree poseidon keccak d).
Proof.
  split; [reflexivity|]. simpl. rewrite length_app, repeat_length. simpl. lia.
Qed.

Lemma wellFormed_insert t leaves t' :
  wellFormed poseidon t ->
  insertLeaves poseidon t leaves = Ok t' ->
  wellFormed poseidon t'.
Proof.
  intros Hwf Hins. destruct leaves as [|x leaves].
  - rewrite insertLeaves_nil in Hins. now injection Hins as <-.
  - destruct (nth_error (tree t) 0) as [level0|] eqn:H0.
    + rewrite (insertLeaves_closed (level0 := level0)) in Hins
        by (auto; discriminate).
      injection Hins as <-. destruct Hwf as [Hebl Hlen].
      split; simpl; [exact Hebl|]. now rewrite length_map, length_seq.
    + apply nth_error_None in H0. destruct Hwf as [_ Hlen]. lia.
Qed.

Lemma reachable_depth d t n :
  reachable poseidon keccak d t n -> depth t = d /\ emptyLeaf t = keccak.
Proof.
  induction 1 as [t Hnew | t n leaves t' _ [IHd IHe] Hins].
  - rewrite newMerkleTree_closed in Hnew. injection Hnew as <-. now split.
  - unfold insertLeaves in Hins. destruct (length leaves =? 0).
    + now injection Hins as <-.
    + destruct (nth_error (tree t) 0); [|discriminate].
      destruct (forEach _ _ _); [|discriminate].
      injection Hins as <-. now split.
Qed.

Lemma reachable_wellFormed d t n :
  reachable poseidon keccak d t n -> wellFormed poseidon t.
Proof.
  induction 1 as [t Hnew | t n leaves t' _ IH Hins].
  - rewrite newMerkleTree_closed in Hnew. injection Hnew as <-.
    apply wellFormed_fresh.
  - eapply wellFormed_insert; eauto.
Qed.

(* -- proofs -------------------------------------------------------- *)

Lemma pathLoop_closed t (i k : nat) :
  k <= length (tree t) ->
  forEach (seq 0 k) ([], Z.of_nat i)
    (fun st level =>
       let '(path, curIndex) := st in
       match nth_error (tree t) level with
       | None => Throw TypeError
       | Some cur =>
           let sibling :=
             if (Z.rem curIndex 2 =? 0)%Z
             then nullish (at_ cur (curIndex + 1))
                          (nth_error (emptyBranchLevels t) level)
             else at_ cur (curIndex - 1) in
           Ok (path ++ [sibling], (curIndex / 2)%Z)
       end)
  = Ok (map (siblingAt t i) (seq 0 k), Z.of_nat (i / 2 ^ k)).
Proof.
  induction k as [|k IH]; intros Hk.
  - change (2 ^ 0) with 1. now rewrite Nat.div_1_r.
  - rewrite seq_S, forEach_snoc, IH by lia. cbn [bind Nat.add].
    rewrite map_app. cbn [map].
    destruct (nth_error (tree t) k) as [cur|] eqn:Hcur;
      [|apply nth_error_None in Hcur; lia].
    do 2 f_equal.
    + f_equal. unfold siblingAt. rewrite Hcur. cbv zeta.
      destruct (parity_cases (i / 2 ^ k)) as [[-> H]|[-> H]].
      * destruct (Z.eqb_spec (Z.rem (Z.of_nat (i / 2 ^ k)) 2) 0);
          [|exfalso; dlia].
        replace (Z.of_nat (i / 2 ^ k) + 1)%Z
          with (Z.of_nat (i / 2 ^ k + 1)) by lia.
        now rewrite at_of_nat.
      * destruct (Z.eqb_spec (Z.rem (Z.of_nat (i / 2 ^ k)) 2) 0);
          [exfalso; dlia|].
        replace (Z.of_nat (i / 2 ^ k) - 1)%Z
          with (Z.of_nat (i / 2 ^ k - 1)) by dlia.
        now rewrite at_of_nat.
    + rewrite Nat.pow_succ_r', (Nat.mul_comm 2), <- Nat.Div0.div_div.
      dlia.
Qed.

Lemma createProof_closed t level0 leaf (i : nat) :
  depth t < length (tree t) ->
  nth_error (tree t) 0 = Some level0 ->
  indexOf level0 leaf = Z.of_nat i ->
  createProof t leaf
  = Ok {| leaf := leaf;
          pathElements := map (siblingAt t i) (seq 0 (depth t));
          leafIndex := Z.of_nat i |}.
Proof.
  intros Hlen H0 Hi. unfold createProof. rewrite H0, Hi.
  destruct (Z.eqb_spec (Z.of_nat i) (-1)); [lia|].
  rewrite pathLoop_closed by lia. reflexivity.
Qed.

(** Hashing the node at position [c] of a level with the sibling that
    [createProof] picked there gives the parent at position [c / 2]. *)
Lemma climb_one e cur (c : nat) v :
  nth_error cur c = Some v ->
  exists w,
    (if negb (Nat.even c)
     then calculateNodeHash poseidon (nth_error cur (c - 1)) (Some v)
     else calculateNodeHash poseidon (Some v)
            (nullish (nth_error cur (c + 1)) (Some e))) = Ok w
    /\ nth_error (par e cur) (c / 2) = Some w.
Proof.
  intros Hv. rewrite parents_nth.
  destruct (parity_cases c) as [[-> H]|[-> H]]; cbn [negb].
  - replace (2 * (c / 2)) with c by dlia. rewrite Hv.
    destruct (nth_error cur (c + 1)); cbn; eauto.
  - replace (2 * (c / 2) + 1) with c by dlia.
    replace (2 * (c / 2)) with (c - 1) by dlia. rewrite Hv.
    destruct (nth_error cur (c - 1)) as [a|] eqn:Ha.
    + cbn. eauto.
    + apply nth_error_None in Ha.
      assert (c < length cur) by (apply nth_error_Some; congruence). lia.
Qed.

Lemma verifyLoop_closed t e level0 leaf (i k : nat) :
  tree t = map (lvl e level0) (seq 0 (S (depth t))) ->
  emptyBranchLevels t = map (eh e) (seq 0 (S (depth t))) ->
  nth_error level0 i = Some leaf ->
  k <= depth t ->
  exists v,
    forEach (seq 0 k) leaf
      (fun currentNode j =>
         if isNodeOnRight (Z.of_nat i) j
         then calculateNodeHash poseidon
                (read (map (siblingAt t i) (seq 0 (depth t))) j)
                (Some currentNode)
         else calculateNodeHash poseidon (Some currentNode)
                (read (map (siblingAt t i) (seq 0 (depth t))) j))
    = Ok v
    /\ nth_error (lvl e level0 k) (i / 2 ^ k) = Some v.
Proof.
  intros Htree Hebl Hleaf. induction k as [|k IH]; intros Hk.
  - exists leaf. split; [reflexivity|].
    change (2 ^ 0) with 1. now rewrite Nat.div_1_r.
  - destruct IH as [v [Hloop Hnode]]; [lia|].
    rewrite seq_S, forEach_snoc, Hloop. cbn [bind Nat.add].
    rewrite isNodeOnRight_odd. unfold read.
    rewrite nth_error_map, nth_error_seq.
    destruct (Nat.ltb_spec k (depth t)); [|lia]. cbn [option_map Nat.add].
    unfold siblingAt. rewrite Htree, Hebl, !nth_error_map, !nth_error_seq.
    destruct (Nat.ltb_spec k (S (depth t))); [|lia].
    cbn [option_map Nat.add].
    destruct (climb_one (eh e k) _ _ Hnode) as [w [Hw Hpar]].
    exists w. split.
    + rewrite <- Hw.
      destruct (Nat.even (i / 2 ^ k)); reflexivity.
    + cbn [levelAt].
      rewrite Nat.pow_succ_r', (Nat.mul_comm 2), <- Nat.Div0.div_div.
      exact Hpar.
Qed.

Lemma nth_error_levels e level0 d l :
  l <= d ->
  nth_error (map (lvl e level0) (seq 0 (S d))) l = Some (lvl e level0 l).
Proof.
  intros Hl. rewrite nth_error_map, nth_error_seq.
  destruct (Nat.ltb_spec l (S d)); [reflexivity|lia].
Qed.

Lemma nth_error_emptyHashes e d l :
  l <= d ->
  nth_error (map (eh e) (seq 0 (S d))) l = Some (eh e l).
Proof.
  intros Hl. rewrite nth_error_map, nth_error_seq.
  destruct (Nat.ltb_spec l (S d)); [reflexivity|lia].
Qed.

Lemma ceilDiv_pos n m : 1 <= n -> 0 < m -> 1 <= ceilDiv n m.
Proof.
  intros Hn Hm. unfold ceilDiv.
  apply Nat.div_le_lower_bound; lia.
Qed.

(** Every reachable tree is either the freshly built one or the closed-form
    tree over its leaf level; at depth 0 the leaf level also holds the
    root entry the constructor put there. *)
Lemma reachable_shape d t n :
  reachable poseidon keccak d t n ->
  (n = 0 /\ t = freshTree poseidon keccak d)
  \/ (1 <= n /\ exists level0,
         tree t = map (lvl keccak level0) (seq 0 (S d))
         /\ length level0 = n + (if d =? 0 then 1 else 0)).
Proof.
  induction 1 as [t Hnew | t n leaves t' Hreach IH Hins].
  - left. rewrite newMerkleTree_closed in Hnew. injection Hnew as <-. auto.
  - destruct leaves as [|x leaves].
    { rewrite insertLeaves_nil in Hins. injection Hins as <-.
      cbn [length]. rewrite Nat.add_0_r. exact IH. }
    right. split; [cbn [length]; lia|].
    pose proof (reachable_wellFormed Hreach) as Hwf.
    destruct (reachable_depth Hreach) as [Hd He].
    assert (exists level0, nth_error (tree t) 0 = Some level0
              /\ length level0 = n + (if d =? 0 then 1 else 0))
      as [level0 [H0 Hlen0]].
    { destruct IH as [[-> ->]|[_ [level0 [Htree Hlen0]]]].
      - destruct d as [|d]; simpl; eauto.
      - exists level0. rewrite Htree, nth_error_levels by lia. auto. }
    rewrite (insertLeaves_closed (level0 := level0)) in Hins
      by (auto; discriminate).
    injection Hins as <-. cbn [tree]. rewrite Hd, He.
    exists (level0 ++ x :: leaves). split; [reflexivity|].
    rewrite length_app, Hlen0. lia.
Qed.

(** In a reachable tree every position of the leaf level has a neighbour
    or an empty-branch hash to pair with at each level below the root. *)
Lemma siblingAt_defined d t n level0 (i level : nat) :
  reachable poseidon keccak d t n ->
  nth_error (tree t) 0 = Some level0 ->
  i < length level0 ->
  level < d ->
  exists sibling, siblingAt t i level = Some sibling.
Proof.
  intros Hreach H0 Hi Hlevel.
  pose proof (reachable_wellFormed Hreach) as [Hebl _].
  destruct (reachable_depth Hreach) as [Hd He].
  assert (tree t = map (lvl keccak level0) (seq 0 (S d))) as Htree.
  { destruct (reachable_shape Hreach) as [[_ ->]|[_ [l0 [Htree _]]]].
    - exfalso. cbn [freshTree tree] in H0.
      rewrite nth_error_app1 in H0 by (rewrite repeat_length; lia).
      rewrite nth_error_repeat in H0 by lia.
      injection H0 as <-. cbn [length] in Hi. lia.
    - rewrite Htree, nth_error_levels in H0 by lia.
      cbn [levelAt] in H0. injection H0 as ->. exact Htree. }
  unfold siblingAt. rewrite Htree, nth_error_levels by lia.
  rewrite Hebl, Hd, nth_error_emptyHashes by lia. cbv zeta.
  assert (i / 2 ^ level < length (lvl keccak level0 level)) as Hc.
  { rewrite levelAt_length. unfold ceilDiv.
    pose proof (pow2_pos level) as Hpos.
    assert (i / 2 ^ level + 1 <= (length level0 + 2 ^ level - 1) / 2 ^ level);
      [|lia].
    rewrite <- Nat.div_add by lia.
    apply Nat.Div0.div_le_mono. lia. }
  destruct (Nat.even (i / 2 ^ level)).
  - destruct (nth_error (lvl keccak level0 level) (i / 2 ^ level + 1));
      cbn [nullish]; eauto.
  - destruct (nth_error (lvl keccak level0 level) (i / 2 ^ level - 1))
      as [sibling|] eqn:E; [eauto|].
    apply nth_error_None in E. lia.
Qed.

(* ================================================================== *)
(** ** Statements about the tree *)
(* ================================================================== *)

(** C2.  Constructing a tree of depth [d] precomputes
    [emptyBranchLevels[0..d]]: entry 0 is the empty-leaf constant, entry [i]
    is the hash of entry [i-1] with itself, and the root of the fresh tree
    is entry [d]. *)
Theorem C2_constructor_empty_levels (d : nat) :
  exists t,
    newMerkleTree poseidon keccak (Z.of_nat d) = Ok (Built t)
    /\ depth t = d
    /\ length (emptyBranchLevels t) = S d
    /\ nth_error (emptyBranchLevels t) 0 = Some keccak
    /\ (forall i, 1 <= i <= d ->
          exists prev,
            nth_error (emptyBranchLevels t) (i - 1) = Some prev
            /\ nth_error (emptyBranchLevels t) i = Some (poseidon prev prev))
    /\ exists r,
          nth_error (emptyBranchLevels t) d = Some r
          /\ root t = Ok (Some r).
Proof.
  exists (freshTree poseidon keccak d).
  split; [apply newMerkleTree_closed|].
  split; [reflexivity|]. cbn [freshTree emptyBranchLevels].
  split; [now rewrite length_map, length_seq|].
  split; [reflexivity|]. split.
  - intros i Hi. exists (eh keccak (i - 1)).
    rewrite !nth_error_emptyHashes by lia. split; [reflexivity|].
    destruct i as [|i]; [lia|]. cbn [emptyHashes].
    now replace (S i - 1) with i by lia.
  - exists (eh keccak d). rewrite nth_error_emptyHashes by lia.
    split; [reflexivity|]. unfold root. cbn [freshTree tree depth].
    rewrite nth_error_app2 by (rewrite repeat_length; lia).
    rewrite repeat_length, Nat.sub_diag. reflexivity.
Qed.

(** C3.  On a reachable tree [insertLeaves] appends the leaves to level 0 in
    order and rebuilds every level above: level [l+1] has
    [ceil(len(level l) / 2)] entries and entry [p] is the hash of entries
    [2p] and [2p+1] of level [l], with [emptyBranchLevels[l]] in place of a
    missing entry [2p+1].  An empty sequence leaves the tree as it is. *)
Theorem C3_insertLeaves_rebuilds (d : nat) t n leaves :
  reachable poseidon keccak d t n ->
  (leaves = [] -> insertLeaves poseidon t leaves = Ok t)
  /\ (leaves <> [] ->
      exists level0 t',
        nth_error (tree t) 0 = Some level0
        /\ insertLeaves poseidon t leaves = Ok t'
        /\ nth_error (tree t') 0 = Some (level0 ++ leaves)
        /\ depth t' = d
        /\ emptyBranchLevels t' = emptyBranchLevels t
        /\ forall l, l < d ->
             exists cur above fallback,
               nth_error (tree t') l = Some cur
               /\ nth_error (tree t') (S l) = Some above
               /\ nth_error (emptyBranchLevels t') l = Some fallback
               /\ length above = ceilDiv (length cur) 2
               /\ forall p, p < length above ->
                    exists a,
                      nth_error cur (2 * p) = Some a
                      /\ nth_error above p
                         = Some (poseidon a
                                   (match nth_error cur (2 * p + 1) with
                                    | Some b => b
                                    | None => fallback
                                    end))).
Proof.
  intros Hreach. split; [intros ->; reflexivity|]. intros Hne.
  pose proof (reachable_wellFormed Hreach) as Hwf.
  destruct (reachable_depth Hreach) as [Hd He].
  destruct (nth_error (tree t) 0) as [level0|] eqn:H0;
    [|apply nth_error_None in H0; destruct Hwf as [_ Hlen]; lia].
  exists level0. eexists. split; [reflexivity|].
  split; [apply (insertLeaves_closed Hwf H0 Hne)|].
  cbn [tree depth emptyBranchLevels]. rewrite Hd.
  split; [apply nth_error_levels; lia|].
  split; [reflexivity|]. split; [reflexivity|].
  intros l Hl.
  exists (lvl (emptyLeaf t) (level0 ++ leaves) l),
         (lvl (emptyLeaf t) (level0 ++ leaves) (S l)),
         (eh (emptyLeaf t) l).
  rewrite !nth_error_levels by lia.
  destruct Hwf as [Hebl _]. rewrite Hebl, Hd, nth_error_emptyHashes by lia.
  do 3 (split; [reflexivity|]). cbn [levelAt].
  rewrite parents_length. split.
  - unfold ceilDiv. f_equal. lia.
  - intros p Hp. rewrite parents_nth.
    destruct (nth_error (lvl (emptyLeaf t) (level0 ++ leaves) l) (2 * p))
      as [a|] eqn:Ha; [eauto|].
    apply nth_error_None in Ha. exfalso. dlia.
Qed.

(** C4.  On a reachable tree [createProof] throws exactly its
    leaf-not-found error when the leaf does not occur in level 0 and not
    otherwise; when the leaf occurs it returns a proof for the first
    position [i] holding it, with one path element per level below the
    root: the element for [level] is a value, never [undefined], and it is
    the neighbour of position [c = floor(i / 2^level)] in [tree[level]],
    that is [tree[level][c + 1] ?? emptyBranchLevels[level]] for even [c]
    and [tree[level][c - 1]] for odd [c]. *)
Theorem C4_createProof_first_occurrence (d : nat) t n x :
  reachable poseidon keccak d t n ->
  exists level0,
    nth_error (tree t) 0 = Some level0
    /\ (createProof t x = Throw (LeafNotFound x) <-> ~ In x level0)
    /\ ((exists e, createProof t x = Throw e) <-> ~ In x level0)
    /\ (In x level0 ->
        exists p i,
          createProof t x = Ok p
          /\ leaf p = x
          /\ leafIndex p = Z.of_nat i
          /\ nth_error level0 i = Some x
          /\ (forall j, j < i -> nth_error level0 j <> Some x)
          /\ length (pathElements p) = d
          /\ (forall level, level < d ->
                exists cur sibling,
                  nth_error (tree t) level = Some cur
                  /\ nth_error (pathElements p) level = Some (Some sibling)
                  /\ Some sibling
                     = (let c := i / 2 ^ level in
                        if Nat.even c
                        then nullish
                               (nth_error cur (c + 1))
                               (nth_error (emptyBranchLevels t) level)
                        else nth_error cur (c - 1)))).
Proof.
  intros Hreach.
  pose proof (reachable_wellFormed Hreach) as [_ Hlen].
  destruct (reachable_depth Hreach) as [Hd _].
  destruct (nth_error (tree t) 0) as [level0|] eqn:H0;
    [|apply nth_error_None in H0; lia].
  exists level0. split; [reflexivity|].
  assert (In x level0 ->
          exists i, indexOf level0 x = Z.of_nat i) as Hidx.
  { intros Hin. pose proof (indexOf_range level0 x) as Hr.
    destruct (Z.eq_dec (indexOf level0 x) (-1)) as [E|E].
    - apply indexOf_absent in E. tauto.
    - exists (Z.to_nat (indexOf level0 x)). lia. }
  assert (~ In x level0 -> createProof t x = Throw (LeafNotFound x))
    as Habs.
  { intros Hnin. apply indexOf_absent in Hnin.
    unfold createProof. rewrite H0, Hnin. reflexivity. }
  assert (In x level0 -> exists p i,
            createProof t x = Ok p
            /\ leaf p = x
            /\ leafIndex p = Z.of_nat i
            /\ nth_error level0 i = Some x
            /\ (forall j, j < i -> nth_error level0 j <> Some x)
            /\ length (pathElements p) = d
            /\ (forall level, level < d ->
                  exists cur sibling,
                    nth_error (tree t) level = Some cur
                    /\ nth_error (pathElements p) level
                       = Some (Some sibling)
                    /\ Some sibling
                       = (let c := i / 2 ^ level in
                          if Nat.even c
                          then nullish
                                 (nth_error cur (c + 1))
                                 (nth_error (emptyBranchLevels t) level)
                          else nth_error cur (c - 1)))) as Hpres.
  { intros Hin. destruct (Hidx Hin) as [i Hi].
    destruct (@indexOf_first _ _ _ Hi) as [Hnth Hfirst].
    eexists. exists i. split.
    - apply createProof_closed with (level0 := level0) (i := i); auto. lia.
    - cbn [leaf leafIndex pathElements].
      rewrite length_map, length_seq, Hd.
      repeat split; auto.
      intros level Hlevel.
      destruct (nth_error (tree t) level) as [cur|] eqn:Hcur;
        [|apply nth_error_None in Hcur; lia].
      assert (i < length level0) as Hi'
          by (apply nth_error_Some; congruence).
      destruct (@siblingAt_defined _ _ _ _ _ _ Hreach H0 Hi' Hlevel)
        as [sibling Hsibling].
      exists cur, sibling. split; [reflexivity|].
      rewrite nth_error_map, nth_error_seq.
      destruct (Nat.ltb_spec level d); [|lia].
      cbn [option_map Nat.add]. rewrite Hsibling.
      split; [reflexivity|].
      rewrite <- Hsibling. unfold siblingAt. rewrite Hcur. reflexivity. }
  split; [|split]; [| |exact Hpres].
  - split; [|exact Habs]. intros Hthrow Hin.
    destruct (Hpres Hin) as [p [i [Hp _]]]. congruence.
  - split; [|eauto]. intros [e Hthrow] Hin.
    destruct (Hpres Hin) as [p [i [Hp _]]]. congruence.
Qed.

(** C1, as amended.  For every depth [d >= 1], every leaf sequence of
    length at most [2^d] inserted into a fresh tree of depth [d] and every
    leaf of that sequence, the root recomputed from [createProof]'s proof is
    the tree's root [tree[d][0]]. *)
Theorem C1_proof_recomputes_root (d : nat) leaves x :
  1 <= d ->
  length leaves <= 2 ^ d ->
  In x leaves ->
  exists t t' p r,
    newMerkleTree poseidon keccak (Z.of_nat d) = Ok (Built t)
    /\ insertLeaves poseidon t leaves = Ok t'
    /\ createProof t' x = Ok p
    /\ getMerkleRootFromProof poseidon keccak p = Ok r
    /\ root t' = Ok (Some r).
Proof.
  intros Hd Hlen Hin.
  assert (leaves <> []) as Hne by (intros ->; inversion Hin).
  assert (nth_error (tree (freshTree poseidon keccak d)) 0 = Some []) as H0.
  { cbn [freshTree tree].
    rewrite nth_error_app1 by (rewrite repeat_length; lia).
    apply nth_error_repeat; lia. }
  pose proof (insertLeaves_closed (wellFormed_fresh d) H0 Hne) as Hins.
  cbn [app freshTree emptyLeaf depth emptyBranchLevels] in Hins.
  set (t' := {| emptyLeaf := keccak; depth := d;
                emptyBranchLevels := map (eh keccak) (seq 0 (S d));
                tree := map (lvl keccak leaves) (seq 0 (S d)) |}) in *.
  assert (exists i, indexOf leaves x = Z.of_nat i) as [i Hi].
  { pose proof (indexOf_range leaves x) as Hr.
    destruct (Z.eq_dec (indexOf leaves x) (-1)) as [E|E].
    - apply indexOf_absent in E. tauto.
    - exists (Z.to_nat (indexOf leaves x)). lia. }
  destruct (@indexOf_first _ _ _ Hi) as [Hnth _].
  assert (i < length leaves) as Hi_lt
    by (apply nth_error_Some; congruence).
  assert (createProof t' x
          = Ok {| leaf := x;
                  pathElements := map (siblingAt t' i) (seq 0 d);
                  leafIndex := Z.of_nat i |}) as Hproof.
  { apply createProof_closed with (level0 := leaves); auto.
    - cbn. rewrite length_map, length_seq. lia. }
  destruct (@verifyLoop_closed t' keccak leaves x i d
              eq_refl eq_refl Hnth (le_n d)) as [r [Hloop Hnode]].
  rewrite Nat.div_small in Hnode by lia.
  exists (freshTree poseidon keccak d), t'. eexists. exists r.
  split; [apply newMerkleTree_closed|].
  split; [exact Hins|]. split; [exact Hproof|]. split.
  - unfold getMerkleRootFromProof.
    change 0%Z with (Z.of_nat 0). rewrite newMerkleTree_closed. cbn [bind].
    cbn [pathElements leafIndex leaf]. rewrite length_map, length_seq.
    exact Hloop.
  - unfold root. cbn [t' tree depth]. rewrite nth_error_levels by lia.
    now rewrite Hnode.
Qed.

(** C5.  [getMerkleRootFromProof] is the fold over the path elements that
    starts from the proof's leaf and at level [i] puts the running node on
    the right when bit [i] of the leaf index is 1 and on the left when it is
    0; it reads nothing but the three fields of the proof. *)
Theorem C5_verification_is_fold (proof : MerkleProof) :
  (0 <= leafIndex proof)%Z ->
  getMerkleRootFromProof poseidon keccak proof
  = verifyFold poseidon (leafIndex proof) 0 (pathElements proof) (leaf proof)
  /\ forall other,
       leaf other = leaf proof ->
       pathElements other = pathElements proof ->
       leafIndex other = leafIndex proof ->
       getMerkleRootFromProof poseidon keccak other
       = getMerkleRootFromProof poseidon keccak proof.
Proof.
  intros Hidx. split.
  - unfold getMerkleRootFromProof.
    change 0%Z with (Z.of_nat 0) at 1. rewrite newMerkleTree_closed.
    cbn [bind].
    destruct proof as [lf path idx]. cbn [leaf pathElements leafIndex] in *.
    exact (@verifyLoop_is_fold poseidon idx Hidx [] path lf).
  - intros [lf' path' idx'] E1 E2 E3. cbn in E1, E2, E3. subst.
    now destruct proof.
Qed.

(** C6, as amended.  In every reachable tree of depth [d] the root entry
    [tree[d][0]] exists.  For [d >= 1]: once a leaf has been inserted, level
    [l] holds at most [ceil(leafCount / 2^l)] entries; before that the
    levels below [d] are empty and level [d] holds the one empty-tree
    root. *)
Theorem C6_level_sizes (d : nat) t n :
  reachable poseidon keccak d t n ->
  (exists top r, nth_error (tree t) d = Some top /\ nth_error top 0 = Some r)
  /\ (1 <= d -> 1 <= n ->
      forall l, l <= d ->
        exists entries,
          nth_error (tree t) l = Some entries
          /\ length entries <= ceilDiv n (2 ^ l))
  /\ (1 <= d -> n = 0 ->
      (forall l, l < d -> nth_error (tree t) l = Some [])
      /\ nth_error (tree t) d = Some [eh keccak d]).
Proof.
  intros Hreach.
  destruct (reachable_shape Hreach)
    as [[-> ->]|[Hn [level0 [Htree Hlen0]]]].
  - split; [|split].
    + exists [eh keccak d], (eh keccak d). split; [|reflexivity].
      cbn [freshTree tree].
      rewrite nth_error_app2 by (rewrite repeat_length; lia).
      rewrite repeat_length, Nat.sub_diag. reflexivity.
    + intros _ Hn. lia.
    + intros Hd _. cbn [freshTree tree]. split.
      * intros l Hl. rewrite nth_error_app1 by (rewrite repeat_length; lia).
        now apply nth_error_repeat.
      * rewrite nth_error_app2 by (rewrite repeat_length; lia).
        rewrite repeat_length, Nat.sub_diag. reflexivity.
  - split; [|split].
    + rewrite Htree, nth_error_levels by lia.
      destruct (nth_error (lvl keccak level0 d) 0) as [r|] eqn:Hr; [eauto|].
      apply nth_error_None in Hr. rewrite levelAt_length in Hr.
      assert (1 <= ceilDiv (length level0) (2 ^ d))
        by (apply ceilDiv_pos; [lia|apply pow2_pos]).
      lia.
    + intros Hd _ l Hl. exists (lvl keccak level0 l).
      rewrite Htree, nth_error_levels by lia. split; [reflexivity|].
      rewrite levelAt_length, Hlen0.
      destruct (Nat.eqb_spec d 0); [lia|]. now rewrite Nat.add_0_r.
    + intros _ Hn0. lia.
Qed.

(** C7.  The constructor throws only for a negative depth; for every depth
    [>= 0] it returns a tree. *)
Theorem C7_constructor_total (depth : Z) :
  (forall e, newMerkleTree poseidon keccak depth = Throw e -> (depth < 0)%Z)
  /\ ((0 <= depth)%Z ->
      exists t, newMerkleTree poseidon keccak depth = Ok (Built t)).
Proof.
  destruct (Z.ltb_spec depth 0) as [Hneg|Hpos].
  - split; [auto|lia].
  - rewrite <- (Z2Nat.id depth) by lia. rewrite newMerkleTree_closed.
    split; [discriminate|eauto].
Qed.

End MerkleFacts.

(* ================================================================== *)
(** ** Concrete runs *)
(* ================================================================== *)

(** The scenario of a depth-2 tree over three leaves: the proof for the
    third leaf has the empty leaf and [H(L0,L1)] as path. *)
Example scenario_three_leaves :
  insertLeaves toyHash (freshTree toyHash "E" 2) ["L0"; "L1"; "L2"]
  = Ok threeLeafTree
  /\ createProof threeLeafTree "L2"
     = Ok {| leaf := "L2";
             pathElements := [Some "E"; Some "H(L0,L1)"];
             leafIndex := 2 |}
  /\ root threeLeafTree = Ok (Some "H(H(L0,L1),H(L2,E))").
Proof. repeat split. Qed.

Lemma reachable_threeLeafTree : reachable toyHash "E" 2 threeLeafTree 3.
Proof.
  apply (@reach_insert toyHash "E" 2 (freshTree toyHash "E" 2) 0
           ["L0"; "L1"; "L2"] threeLeafTree).
  - apply reach_new. reflexivity.
  - reflexivity.
Defined.

(** C1 fails at depth 0: the constructor has put the empty root into the
    leaf level, the inserted leaf lands behind it, and the root stays the
    empty leaf while the proof recomputes the leaf itself. *)
Lemma C1_counterexample_depth0 :
  length ["L"] <= 2 ^ 0
  /\ In "L" ["L"]
  /\ exists t t' p r,
       newMerkleTree toyHash "E" (Z.of_nat 0) = Ok (Built t)
       /\ insertLeaves toyHash t ["L"] = Ok t'
       /\ tree t' = [["E"; "L"]]
       /\ createProof t' "L" = Ok p
       /\ getMerkleRootFromProof toyHash "E" p = Ok r
       /\ r = "L"
       /\ root t' = Ok (Some "E")
       /\ root t' <> Ok (Some r).
Proof.
  split; [simpl; lia|]. split; [simpl; auto|].
  do 4 eexists. repeat split; try reflexivity. discriminate.
Qed.

Lemma C1_witness :
  1 <= 2 /\ length ["L0"; "L1"; "L2"] <= 2 ^ 2 /\ In "L2" ["L0"; "L1"; "L2"]
  /\ exists t t' p r,
       newMerkleTree toyHash "E" (Z.of_nat 2) = Ok (Built t)
       /\ insertLeaves toyHash t ["L0"; "L1"; "L2"] = Ok t'
       /\ createProof t' "L2" = Ok p
       /\ getMerkleRootFromProof toyHash "E" p = Ok r
       /\ root t' = Ok (Some r).
Proof.
  assert (1 <= 2) as H1 by lia.
  assert (length ["L0"; "L1"; "L2"] <= 2 ^ 2) as H2 by (simpl; lia).
  assert (In "L2" ["L0"; "L1"; "L2"]) as H3 by (simpl; auto).
  repeat split; try assumption.
  exact (@C1_proof_recomputes_root toyHash "E" 2 ["L0"; "L1"; "L2"] "L2"
           H1 H2 H3).
Defined.

Lemma C2_witness :
  exists t,
    newMerkleTree toyHash "E" 2 = Ok (Built t)
    /\ depth t = 2
    /\ length (emptyBranchLevels t) = 3
    /\ nth_error (emptyBranchLevels t) 0 = Some "E"
    /\ (forall i, 1 <= i <= 2 ->
          exists prev,
            nth_error (emptyBranchLevels t) (i - 1) = Some prev
            /\ nth_error (emptyBranchLevels t) i = Some (toyHash prev prev))
    /\ exists r,
          nth_error (emptyBranchLevels t) 2 = Some r
          /\ root t = Ok (Some r).
Proof.
  exact (C2_constructor_empty_levels toyHash "E" 2).
Defined.

Lemma C3_witness :
  reachable toyHash "E" 2 threeLeafTree 3
  /\ exists level0 t',
       nth_error (tree threeLeafTree) 0 = Some level0
       /\ insertLeaves toyHash threeLeafTree ["L3"; "L4"] = Ok t'
       /\ nth_error (tree t') 0 = Some (level0 ++ ["L3"; "L4"]).
Proof.
  split; [exact reachable_threeLeafTree|].
  destruct (proj2 (@C3_insertLeaves_rebuilds toyHash "E" 2 threeLeafTree 3
                     ["L3"; "L4"] reachable_threeLeafTree))
    as [level0 [t' [H0 [Hins [Hl0 _]]]]]; [discriminate|].
  exists level0, t'. auto.
Defined.

Lemma C4_witness :
  reachable toyHash "E" 2 duplicateLeafTree 3
  /\ exists level0,
       nth_error (tree duplicateLeafTree) 0 = Some level0
       /\ (createProof duplicateLeafTree "L0" = Throw (LeafNotFound "L0")
           <-> ~ In "L0" level0).
Proof.
  assert (reachable toyHash "E" 2 duplicateLeafTree 3) as Hreach.
  { apply (@reach_insert toyHash "E" 2 (freshTree toyHash "E" 2) 0
             ["L0"; "L1"; "L0"] duplicateLeafTree).
    - apply reach_new. reflexivity.
    - reflexivity. }
  split; [exact Hreach|].
  destruct (@C4_createProof_first_occurrence toyHash "E" 2
              duplicateLeafTree 3 "L0" Hreach) as [level0 [H0 [Hiff _]]].
  exists level0. auto.
Defined.

(** A leaf stored twice: the proof is the one for position 0. *)
Example duplicate_leaf_first_position :
  createProof duplicateLeafTree "L0"
  = Ok {| leaf := "L0";
          pathElements := [Some "L1"; Some "H(L0,E)"];
          leafIndex := 0 |}.
Proof. reflexivity. Qed.

Lemma C5_witness :
  (0 <= 2)%Z
  /\ getMerkleRootFromProof toyHash "E"
       {| leaf := "L2"; pathElements := [Some "E"; Some "H(L0,L1)"];
          leafIndex := 2 |}
     = verifyFold toyHash 2 0 [Some "E"; Some "H(L0,L1)"] "L2".
Proof.
  assert (0 <= 2)%Z as H by lia. split; [exact H|].
  exact (proj1 (@C5_verification_is_fold toyHash "E"
                  {| leaf := "L2";
                     pathElements := [Some "E"; Some "H(L0,L1)"];
                     leafIndex := 2 |} H)).
Defined.

(** C6 fails on a tree nothing was inserted into: level [d] already holds the
    empty-tree root although [ceil(0 / 2^d) = 0]. *)
Lemma C6_counterexample_fresh_tree :
  exists t entries,
    reachable toyHash "E" 1 t 0
    /\ nth_error (tree t) 1 = Some entries
    /\ length entries = 1
    /\ ceilDiv 0 (2 ^ 1) = 0
    /\ ~ length entries <= ceilDiv 0 (2 ^ 1).
Proof.
  exists (freshTree toyHash "E" 1), ["H(E,E)"].
  split; [apply reach_new; reflexivity|].
  repeat split. simpl. unfold ceilDiv. simpl. lia.
Qed.

Lemma C6_witness :
  reachable toyHash "E" 2 threeLeafTree 3
  /\ (exists top r,
        nth_error (tree threeLeafTree) 2 = Some top
        /\ nth_error top 0 = Some r)
  /\ exists entries,
       nth_error (tree threeLeafTree) 1 = Some entries
       /\ length entries <= ceilDiv 3 (2 ^ 1).
Proof.
  split; [exact reachable_threeLeafTree|].
  destruct (@C6_level_sizes toyHash "E" 2 threeLeafTree 3
              reachable_threeLeafTree) as [Hroot [Hsize _]].
  split; [exact Hroot|].
  apply Hsize; lia.
Defined.

Lemma C7_witness :
  (0 <= 3)%Z /\ exists t, newMerkleTree toyHash "E" 3 = Ok (Built t).
Proof.
  assert (0 <= 3)%Z as H by lia. split; [exact H|].
  exact (proj2 (C7_constructor_total toyHash "E" 3) H).
Defined.

(** What the constructor does below depth 0. *)
Example constructor_negative_depths :
  newMerkleTree toyHash "E" (-1) = Ok (BuiltRootUndefined (-1) ["E"])
  /\ newMerkleTree toyHash "E" (-2) = Throw RangeError.
Proof. split; reflexivity. Qed.

(* ================================================================== *)
(** ** Interpolation over a prime field *)
(* ================================================================== *)

Lemma picks_fst {A} (l : list A) : map fst (picks l) = l.
Proof.
  induction l as [|a l IH]; simpl; [reflexivity|].
  f_equal. rewrite map_map.
  transitivity (map fst (picks l)); [|exact IH].
  apply map_ext. reflexivity.
Qed.

Lemma picks_perm {A} (l : list A) s others :
  In (s, others) (picks l) -> Permutation (s :: others) l.
Proof.
  revert s others; induction l as [|a l IH]; intros s others Hin;
    simpl in Hin; [contradiction|].
  destruct Hin as [Heq|Hin].
  - injection Heq as <- <-. apply Permutation_refl.
  - apply in_map_iff in Hin. destruct Hin as [[s' o'] [Heq Hin]].
    simpl in Heq. injection Heq as <- <-.
    apply perm_trans with (a :: s' :: o'); [apply perm_swap|].
    apply perm_skip. now apply IH.
Qed.

Section Interpolation.

Variable p : Z.
Hypothesis p_prime : Z.prime p.

Add Field FpField : (Zmod.field_theory p p_prime).

Local Notation "'F'" := (Zmod p).
Local Notation "'xF'" := (shareX p).
Local Notation "'yF'" := (shareY p).

Local Open Scope Zmod_scope.

Lemma sumF_cons {A} (f : A -> F) a l : sumF f (a :: l) = f a + sumF f l.
Proof. reflexivity. Qed.

Lemma basisAt_cons (y xi : F) o others :
  basisAt y xi (o :: others)
  = Zmod.mdiv (y - xF o) (xi - xF o) * basisAt y xi others.
Proof. reflexivity. Qed.

(* -- polynomials ---------------------------------------------------- *)

(** Division by [X - a]: the quotient has one coefficient less. *)
Lemma evalPoly_factor (a : F) (coeffs : list F) :
  exists q,
    length q = pred (length coeffs)
    /\ forall y,
         evalPoly coeffs y = evalPoly coeffs a + (y - a) * evalPoly q y.
Proof.
  induction coeffs as [|c rest [q [Hlen Hq]]].
  - exists []. split; [reflexivity|]. intros y. simpl. ring.
  - destruct rest as [|c' rest'].
    + exists []. split; [reflexivity|]. intros y. simpl. ring.
    + exists (evalPoly (c' :: rest') a :: q). split.
      * simpl in *. now rewrite Hlen.
      * intros y. specialize (Hq y).
        change (evalPoly (c :: c' :: rest') y)
          with (c + y * evalPoly (c' :: rest') y).
        change (evalPoly (c :: c' :: rest') a)
          with (c + a * evalPoly (c' :: rest') a).
        change (evalPoly (evalPoly (c' :: rest') a :: q) y)
          with (evalPoly (c' :: rest') a + y * evalPoly q y).
        rewrite Hq. ring.
Qed.

(** A polynomial with as many distinct roots as coefficients vanishes. *)
Lemma evalPoly_roots (roots : list F) :
  NoDup roots ->
  forall coeffs,
    (length coeffs <= length roots)%nat ->
    (forall x, In x roots -> evalPoly coeffs x = 0) ->
    forall y, evalPoly coeffs y = 0.
Proof.
  induction 1 as [|a roots Hnotin Hnd IH]; intros coeffs Hlen Hroots y.
  - destruct coeffs; [reflexivity|simpl in Hlen; lia].
  - destruct (evalPoly_factor a coeffs) as [q [Hq Hfac]].
    assert (evalPoly coeffs a = 0) as Ha by (apply Hroots; now left).
    rewrite Hfac, Ha.
    rewrite (IH q); [ring| simpl in Hlen; lia |].
    intros x Hx.
    assert (evalPoly coeffs x = 0) as Hx0 by (apply Hroots; now right).
    rewrite Hfac, Ha in Hx0.
    assert ((x - a) * evalPoly q x = 0) as Hprod
      by (rewrite <- Hx0; ring).
    apply (Zmod.mul_0_iff_prime p_prime) in Hprod.
    destruct Hprod as [Hxa|Hqx]; [|exact Hqx].
    exfalso. apply Hnotin.
    replace a with x; [exact Hx|].
    transitivity (x - a + a); [ring|]. rewrite Hxa. ring.
Qed.

Lemma polyFn_weaken n m (f : F -> F) :
  (n <= m)%nat -> polyFn n f -> polyFn m f.
Proof.
  intros Hnm [cs [Hlen Hf]]. exists cs. split; [lia|exact Hf].
Qed.

Lemma polyFn_ext n (f g : F -> F) :
  (forall y, f y = g y) -> polyFn n f -> polyFn n g.
Proof.
  intros Hfg [cs [Hlen Hf]]. exists cs. split; [exact Hlen|].
  intros y. now rewrite <- Hfg.
Qed.

Lemma polyFn_zero n : polyFn (p := p) n (fun _ => 0).
Proof. exists []. split; [simpl; lia|reflexivity]. Qed.

Lemma polyFn_const (c : F) : polyFn 1 (fun _ => c).
Proof.
  exists [c]. split; [reflexivity|]. intros y. simpl. ring.
Qed.

Lemma polyFn_scale n (c : F) (f : F -> F) :
  polyFn n f -> polyFn n (fun y => c * f y).
Proof.
  intros [cs [Hlen Hf]]. exists (map (Zmod.mul c) cs).
  split; [now rewrite length_map|].
  intros y. rewrite Hf. clear Hf Hlen.
  induction cs as [|a cs IH]; simpl; [ring|]. rewrite <- IH. ring.
Qed.

Lemma polyFn_add n (f g : F -> F) :
  polyFn n f -> polyFn n g -> polyFn n (fun y => f y + g y).
Proof.
  intros [cs [Hlen Hf]] [ds [Hlen' Hg]].
  assert (exists es, (length es <= Nat.max (length cs) (length ds))%nat
                     /\ forall y, evalPoly es y
                                  = evalPoly cs y + evalPoly ds y)
    as [es [Hes Heval]].
  { clear Hlen Hlen' Hf Hg. revert ds; induction cs as [|c cs IH]; intros ds.
    - exists ds. split; [simpl; lia|]. intros y. simpl. ring.
    - destruct ds as [|d ds].
      + exists (c :: cs). split; [simpl; lia|]. intros y. simpl. ring.
      + destruct (IH ds) as [es [Hes Heval]].
        exists (c + d :: es). split; [simpl; lia|].
        intros y. simpl. rewrite Heval. ring. }
  exists es. split; [lia|]. intros y. now rewrite Hf, Hg, Heval.
Qed.

Lemma polyFn_shift n (f : F -> F) :
  polyFn n f -> polyFn (S n) (fun y => y * f y).
Proof.
  intros [cs [Hlen Hf]]. exists (0 :: cs). split; [simpl; lia|].
  intros y. simpl. rewrite Hf. ring.
Qed.

Lemma polyFn_linear n (a : F) (f : F -> F) :
  polyFn n f -> polyFn (S n) (fun y => (y - a) * f y).
Proof.
  intros Hf.
  apply polyFn_ext with (f := fun y => y * f y + (0 - a) * f y);
    [intros y; ring|].
  apply polyFn_add; [now apply polyFn_shift|].
  apply polyFn_weaken with (n := n); [lia|]. now apply polyFn_scale.
Qed.

Lemma polyFn_sumF {A} n (g : A -> F -> F) (l : list A) :
  (forall a, In a l -> polyFn n (g a)) ->
  polyFn n (fun y => sumF (fun a => g a y) l).
Proof.
  induction l as [|a l IH]; intros Hg.
  - apply polyFn_zero.
  - apply polyFn_ext
      with (f := fun y => g a y + sumF (fun b => g b y) l);
      [intros y; now rewrite sumF_cons|].
    apply polyFn_add; [apply Hg; now left|].
    apply IH. intros b Hb. apply Hg. now right.
Qed.

Lemma polyFn_basisAt (xi : F) others :
  polyFn (S (length others)) (fun y => basisAt y xi others).
Proof.
  induction others as [|o others IH].
  - exact (polyFn_const 1).
  - apply polyFn_ext
      with (f := fun y => (y - xF o)
                          * (Zmod.inv (xi - xF o) * basisAt y xi others)).
    + intros y. rewrite basisAt_cons. unfold Zmod.mdiv. ring.
    + apply polyFn_linear. now apply polyFn_scale.
Qed.

Lemma polyFn_lagrangeAt shares :
  polyFn (length shares) (lagrangeAt (p := p) shares).
Proof.
  unfold lagrangeAt.
  apply polyFn_sumF with
    (g := fun pk y => yF (fst pk) * basisAt y (xF (fst pk)) (snd pk)).
  intros [s others] Hin. apply polyFn_scale. simpl.
  apply picks_perm, Permutation_length in Hin. simpl in Hin.
  rewrite <- Hin. apply polyFn_basisAt.
Qed.

(* -- the shares ------------------------------------------------------ *)

Lemma sumF_ext_in {A} (f g : A -> F) (l : list A) :
  (forall a, In a l -> f a = g a) -> sumF f l = sumF g l.
Proof.
  induction l as [|a l IH]; intros Hfg; [reflexivity|].
  rewrite !sumF_cons, Hfg by now left. rewrite IH; [reflexivity|].
  intros b Hb. apply Hfg. now right.
Qed.

Lemma sumF_map {A B} (h : A -> B) (f : B -> F) (l : list A) :
  sumF f (map h l) = sumF (fun a => f (h a)) l.
Proof.
  induction l as [|a l IH]; [reflexivity|].
  cbn [map]. now rewrite !sumF_cons, IH.
Qed.

Lemma sumF_zero {A} (l : list A) : sumF (fun _ => (0 : F)) l = 0.
Proof.
  induction l as [|a l IH]; [reflexivity|]. rewrite sumF_cons, IH. ring.
Qed.

(** In a list with pairwise distinct indices, the share [m] is the only one
    whose index is that of [m]. *)
Lemma sumF_delta (l : list ShamirShare) (m : ShamirShare) (c : F) :
  NoDup (map xF l) ->
  In m l ->
  sumF (fun s => if Zmod.eqb (xF s) (xF m) then c else 0) l = c.
Proof.
  induction l as [|s l IH]; intros Hnd Hin; [contradiction|].
  cbn [map] in Hnd. inversion Hnd as [|? ? Hnotin Hnd']; subst.
  rewrite sumF_cons.
  destruct Hin as [->|Hin].
  - rewrite Zmod.eqb_refl.
    rewrite (sumF_ext_in _ (fun _ => 0)); [rewrite sumF_zero; ring|].
    intros s Hs. destruct (Zmod.eqb_spec (xF s) (xF m)) as [E|E];
      [|reflexivity].
    exfalso. apply Hnotin. rewrite <- E. now apply in_map.
  - destruct (Zmod.eqb_spec (xF s) (xF m)) as [E|E].
    + exfalso. apply Hnotin. rewrite E. now apply in_map.
    + rewrite IH by assumption. ring.
Qed.

Lemma picks_distinct (l : list ShamirShare) s others o :
  NoDup (map xF l) ->
  In (s, others) (picks l) ->
  In o others ->
  xF s - xF o <> 0.
Proof.
  intros Hnd Hpk Ho Hzero.
  apply picks_perm in Hpk.
  apply (Permutation_map xF), Permutation_sym in Hpk.
  apply (Permutation_NoDup Hpk) in Hnd. cbn [map] in Hnd.
  inversion Hnd as [|? ? Hnotin _]; subst. apply Hnotin.
  replace (xF s) with (xF o).
  - now apply in_map.
  - transitivity (xF s - (xF s - xF o)); [ring|].
    rewrite Hzero. ring.
Qed.

Lemma basisAtZero_closed (xi : F) others :
  (forall o, In o others -> xi - xF o <> 0) ->
  basisAtZero xi others = Ok (basisAt 0 xi others).
Proof.
  induction others as [|o others IH]; intros Hdist; [reflexivity|].
  cbn [basisAtZero].
  destruct (Zmod.eqb_spec (xi - xF o) 0) as [E|E].
  - exfalso. apply (Hdist o); [now left|exact E].
  - rewrite IH by (intros o' Ho'; apply Hdist; now right). reflexivity.
Qed.

Lemma sumTerms_closed (ps : list (ShamirShare * list ShamirShare)) :
  (forall pk o, In pk ps -> In o (snd pk) -> xF (fst pk) - xF o <> 0) ->
  sumTerms p ps
  = Ok (sumF (fun pk => yF (fst pk) * basisAt 0 (xF (fst pk)) (snd pk)) ps).
Proof.
  induction ps as [|pk ps IH]; intros Hdist; [reflexivity|].
  cbn [sumTerms].
  rewrite basisAtZero_closed
    by (intros o Ho; apply (Hdist pk o); [now left|exact Ho]).
  rewrite IH by (intros pk' o Hpk' Ho; apply Hdist; [now right|exact Ho]).
  reflexivity.
Qed.

(** With pairwise distinct indices the reconstruction does not fail and is
    the interpolating polynomial's value at 0. *)
Lemma reconstructSecret_closed k (shares : list ShamirShare) :
  NoDup (map xF shares) ->
  reconstructSecret p k shares
  = Ok (Zmod.to_Z (lagrangeAt (p := p) shares 0)).
Proof.
  intros Hnd. unfold reconstructSecret.
  rewrite sumTerms_closed; [reflexivity|].
  intros [s others] o Hpk Ho. cbn [fst snd] in *.
  eapply picks_distinct; eassumption.
Qed.

Lemma basisAt_same (x : F) others :
  (forall o, In o others -> x - xF o <> 0) ->
  basisAt x x others = 1.
Proof.
  induction others as [|o others IH]; intros Hdist; [reflexivity|].
  rewrite basisAt_cons.
  rewrite IH by (intros o' Ho'; apply Hdist; now right).
  assert (x - xF o <> 0) as Hne by (apply Hdist; now left).
  rewrite (Zmod.mdiv_same_prime _ p_prime Hne). ring.
Qed.

Lemma basisAt_other (xi : F) others m :
  In m others -> basisAt (xF m) xi others = 0.
Proof.
  induction others as [|o others IH]; intros Hin; [contradiction|].
  rewrite basisAt_cons.
  destruct Hin as [->|Hin].
  - unfold Zmod.mdiv. ring.
  - rewrite IH by assumption. ring.
Qed.

(** The interpolating polynomial passes through every share. *)
Lemma lagrangeAt_interpolates (shares : list ShamirShare) m :
  NoDup (map xF shares) ->
  In m shares ->
  lagrangeAt (p := p) shares (xF m) = yF m.
Proof.
  intros Hnd Hin. unfold lagrangeAt.
  rewrite (sumF_ext_in _
             (fun pk => if Zmod.eqb (xF (fst pk)) (xF m) then yF m else 0)).
  - rewrite <- (sumF_map fst
                  (fun s => if Zmod.eqb (xF s) (xF m) then yF m else 0)).
    rewrite picks_fst. now apply sumF_delta.
  - intros [s others] Hpk. cbn [fst snd].
    pose proof (@picks_perm _ _ _ _ Hpk) as Hperm.
    destruct (Zmod.eqb_spec (xF s) (xF m)) as [E|E].
    + assert (s = m) as ->.
      { assert (In s shares) as Hs
          by (apply (Permutation_in _ Hperm); now left).
        clear - Hnd Hs Hin E. induction shares as [|a l IH];
          [contradiction|].
        cbn [map] in Hnd. inversion Hnd as [|? ? Hnotin Hnd']; subst.
        destruct Hs as [->|Hs], Hin as [->|Hin]; auto.
        - exfalso. apply Hnotin. rewrite E. now apply in_map.
        - exfalso. apply Hnotin. rewrite <- E. now apply in_map. }
      rewrite basisAt_same; [ring|].
      intros o Ho. eapply picks_distinct; eassumption.
    + assert (In m others) as Hm.
      { apply Permutation_sym in Hperm.
        destruct (Permutation_in _ Hperm Hin) as [->|Hm];
          [congruence|exact Hm]. }
      rewrite (@basisAt_other _ _ _ Hm). ring.
Qed.

(** Shares that lie on a polynomial with at most as many coefficients as
    there are shares give back its constant coefficient. *)
Lemma lagrangeAt_recovers (coeffs : list F) (shares : list ShamirShare) :
  NoDup (map xF shares) ->
  (length coeffs <= length shares)%nat ->
  (forall s, In s shares -> yF s = evalPoly coeffs (xF s)) ->
  lagrangeAt (p := p) shares 0 = evalPoly coeffs 0.
Proof.
  intros Hnd Hlen Hon.
  destruct (polyFn_lagrangeAt shares) as [ls [Hls Hl]].
  assert (polyFn (length shares)
            (fun y => evalPoly coeffs y + (0 - 1) * lagrangeAt shares y))
    as [ds [Hds Hd]].
  { apply polyFn_add.
    - exists coeffs. split; [exact Hlen|reflexivity].
    - apply polyFn_scale. exists ls. split; [exact Hls|exact Hl]. }
  assert (evalPoly ds 0 = 0) as Hzero.
  { apply (evalPoly_roots Hnd).
    - now rewrite length_map.
    - intros x Hx. apply in_map_iff in Hx. destruct Hx as [s [<- Hs]].
      rewrite <- Hd, (@lagrangeAt_interpolates _ _ Hnd Hs), (Hon s Hs).
      ring. }
  rewrite <- Hd in Hzero.
  transitivity (evalPoly coeffs 0
                - (evalPoly coeffs 0 + (0 - 1) * lagrangeAt shares 0));
    [ring|].
  rewrite Hzero. ring.
Qed.

End Interpolation.

(* ================================================================== *)
(** ** Statements about the reconstruction *)
(* ================================================================== *)

Section ShamirFacts.

Variable p : Z.
Hypothesis p_prime : Z.prime p.

Lemma splitSecret_in secret higher n s :
  In s (splitSecret p secret higher n) ->
  exists i, 1 <= i <= n /\ s = shareAt p (secret :: higher) (Z.of_nat i).
Proof.
  unfold splitSecret. intros Hin. apply in_map_iff in Hin.
  destruct Hin as [i [<- Hi]]. apply in_seq in Hi. exists i. split; [lia|auto].
Qed.

Lemma splitSecret_distinct secret higher n sub :
  (Z.of_nat n < p)%Z ->
  NoDup sub ->
  incl sub (splitSecret p secret higher n) ->
  NoDup (map (shareX p) sub).
Proof.
  intros Hn Hnd Hincl. apply Finite.Injective_map_NoDup_in; [|exact Hnd].
  intros x y Hx Hy Hxy.
  destruct (@splitSecret_in _ _ _ _ (Hincl _ Hx)) as [i [Hi ->]].
  destruct (@splitSecret_in _ _ _ _ (Hincl _ Hy)) as [j [Hj ->]].
  unfold shareX, shareAt in Hxy. cbn [fst] in Hxy.
  apply Zmod.of_Z_inj in Hxy.
  rewrite !Z.mod_small in Hxy by lia.
  now replace j with i by lia.
Qed.

Lemma splitSecret_on_polynomial secret higher n s :
  In s (splitSecret p secret higher n) ->
  shareY p s
  = evalPoly (map (Zmod.of_Z p) (secret :: higher)) (shareX p s).
Proof.
  intros Hin. destruct (@splitSecret_in _ _ _ _ Hin) as [i [_ ->]].
  unfold shareY, shareX, shareAt. cbn [fst snd].
  apply Zmod.of_Z_to_Z.
Qed.

Lemma reconstructSecret_of_split secret higher n sub :
  (Z.of_nat n < p)%Z ->
  NoDup sub ->
  incl sub (splitSecret p secret higher n) ->
  S (length higher) <= length sub ->
  reconstructSecret p (S (length higher)) sub = Ok (secret mod p)%Z
  /\ reconstructSecret p (S (length higher)) sub
     = Ok (Zmod.to_Z (lagrangeAt (p := p) sub Zmod.zero)).
Proof.
  intros Hn Hnd Hincl Hlen.
  pose proof (@splitSecret_distinct _ _ _ _ Hn Hnd Hincl) as Hdist.
  rewrite (@reconstructSecret_closed p p_prime _ _ Hdist).
  split; [|reflexivity]. f_equal.
  rewrite (@lagrangeAt_recovers p p_prime
             (map (Zmod.of_Z p) (secret :: higher)) sub Hdist).
  - cbn [map evalPoly]. rewrite Zmod.mul_0_l, Zmod.add_0_r.
    apply Zmod.to_Z_of_Z.
  - rewrite length_map. exact Hlen.
  - intros s Hs. eapply splitSecret_on_polynomial. apply Hincl, Hs.
Qed.

(** C8.  A secret split with threshold [k] into [n] shares is reconstructed
    from any [k] of them: two selections of [k] distinct shares give the
    same result, the secret, which is the value at 0 of the Lagrange
    interpolation of the selected shares over the field. *)
Theorem C8_reconstruction_subset_independent
        (secret : Z) (higher : list Z) (n : nat)
        (sub1 sub2 : list ShamirShare) :
  (Z.of_nat n < p)%Z ->
  NoDup sub1 -> incl sub1 (splitSecret p secret higher n) ->
  length sub1 = S (length higher) ->
  NoDup sub2 -> incl sub2 (splitSecret p secret higher n) ->
  length sub2 = S (length higher) ->
  reconstructSecret p (S (length higher)) sub1
  = reconstructSecret p (S (length higher)) sub2
  /\ reconstructSecret p (S (length higher)) sub1 = Ok (secret mod p)%Z
  /\ reconstructSecret p (S (length higher)) sub1
     = Ok (Zmod.to_Z (lagrangeAt (p := p) sub1 Zmod.zero)).
Proof.
  intros Hn Hnd1 Hin1 Hlen1 Hnd2 Hin2 Hlen2.
  destruct (@reconstructSecret_of_split _ _ _ _ Hn Hnd1 Hin1)
    as [H1 H1']; [lia|].
  destruct (@reconstructSecret_of_split _ _ _ _ Hn Hnd2 Hin2)
    as [H2 _]; [lia|].
  split; [congruence|]. split; assumption.
Qed.

End ShamirFacts.

Lemma prime_7 : Z.prime 7.
Proof.
  split; [lia|]. intros n Hn [q Hq].
  assert (n = 2 \/ n = 3 \/ n = 4 \/ n = 5 \/ n = 6)%Z
    as [->|[->|[->|[->| ->]]]] by lia; lia.
Qed.

(** The shares of the secret 5 under [5 + 3 X + 2 X^2] over the field with
    7 elements, and the selections [{1,2,3}] and [{3,4,5}]. *)
Example split_example :
  splitSecret 7 5 [3; 2]%Z 5
  = [(1, 3); (2, 5); (3, 4); (4, 0); (5, 0)]%Z.
Proof. reflexivity. Qed.

Lemma C8_witness :
  reconstructSecret 7 3 [(1, 3); (2, 5); (3, 4)]%Z
  = reconstructSecret 7 3 [(3, 4); (4, 0); (5, 0)]%Z
  /\ reconstructSecret 7 3 [(1, 3); (2, 5); (3, 4)]%Z = Ok 5%Z.
Proof.
  assert (Z.of_nat 5 < 7)%Z as Hn by (simpl; lia).
  assert (forall sub : list ShamirShare,
             sub = [(1, 3); (2, 5); (3, 4)]%Z
             \/ sub = [(3, 4); (4, 0); (5, 0)]%Z ->
             NoDup sub /\ incl sub (splitSecret 7 5 [3; 2]%Z 5)
             /\ length sub = 3) as Hsel.
  { intros sub [-> | ->]; (split; [|split; [|reflexivity]]).
    - repeat constructor; simpl; intuition discriminate.
    - intros s Hs; simpl in Hs; vm_compute; tauto.
    - repeat constructor; simpl; intuition discriminate.
    - intros s Hs; simpl in Hs; vm_compute; tauto. }
  destruct (Hsel _ (or_introl eq_refl)) as [Hnd1 [Hin1 Hlen1]].
  destruct (Hsel _ (or_intror eq_refl)) as [Hnd2 [Hin2 Hlen2]].
  destruct (@C8_reconstruction_subset_independent 7 prime_7 5 [3; 2]%Z 5
              _ _ Hn Hnd1 Hin1 Hlen1 Hnd2 Hin2 Hlen2) as [Heq [Hsecret _]].
  split; [exact Heq|exact Hsecret].
Defined.

(** Two of the three shares interpolate a different value. *)
Example two_shares_miss : reconstructSecret 7 3 [(1, 3); (2, 5)]%Z = Ok 1%Z.
Proof. reflexivity. Qed.

(* ================================================================== *)
(** ** Statements about the time check and the import *)
(* ================================================================== *)

(** C9.  The time check accepts exactly when chain time and the proof's
    public time are at most 30 minutes apart and otherwise reverts with the
    time error; 31 minutes apart is rejected, 29 minutes is accepted (times
    in seconds). *)
Theorem C9_time_window (T publicTime : Z) :
  (timeCheck T publicTime = Ok tt
   <-> (Z.abs (T - publicTime) <= 30 * 60)%Z)
  /\ (timeCheck T publicTime = Throw TimeOutOfBounds
      <-> (30 * 60 < Z.abs (T - publicTime))%Z)
  /\ timeCheck (publicTime + 31 * 60) publicTime = Throw TimeOutOfBounds
  /\ timeCheck (publicTime - 31 * 60) publicTime = Throw TimeOutOfBounds
  /\ timeCheck (publicTime + 29 * 60) publicTime = Ok tt
  /\ timeCheck (publicTime - 29 * 60) publicTime = Ok tt
  /\ timeCheck (publicTime + 30 * 60) publicTime = Ok tt
  /\ timeCheck (publicTime + 200 + 30 * 60) publicTime
     = Throw TimeOutOfBounds.
Proof.
  assert (forall a b,
             (timeCheck a b = Ok tt
              <-> (Z.abs (a - b) <= 30 * 60)%Z)
             /\ (timeCheck a b = Throw TimeOutOfBounds
                 <-> (30 * 60 < Z.abs (a - b))%Z)) as Hchar.
  { intros a b. unfold timeCheck, timeDifferenceTolerance.
    destruct (Z.leb_spec (Z.abs (a - b)) (30 * 60)) as [H|H];
      (split; split; intros H'; try reflexivity; try discriminate; lia). }
  split; [apply Hchar|]. split; [apply Hchar|].
  repeat split; apply Hchar; lia.
Qed.

Section SnapFacts.

Variable RejectedConfirm : string.

Local Notation "'import'" :=
  (processRpcRequest_ImportZkCert RejectedConfirm).

Lemma find_leafHash_none certs (h : string) :
  find (fun candidate => String.eqb (leafHash candidate) h) certs = None ->
  ~ In h (map leafHash certs).
Proof.
  induction certs as [|c certs IH]; simpl; [tauto|].
  destruct (String.eqb_spec (leafHash c) h) as [E|E]; [discriminate|].
  intros Hnone [H|H]; [congruence|]. now apply IH.
Qed.

Lemma find_leafHash_some certs (h : string) :
  In h (map leafHash certs) ->
  exists c, find (fun candidate => String.eqb (leafHash candidate) h) certs
            = Some c.
Proof.
  induction certs as [|c certs IH]; simpl; [tauto|].
  destruct (String.eqb_spec (leafHash c) h) as [E|E]; [eauto|].
  intros [H|H]; [congruence|]. now apply IH.
Qed.

Lemma find_holder_some hs (commitment : string) :
  In commitment (map holder_holderCommitment hs) ->
  exists h,
    find (fun candidate =>
            String.eqb (holder_holderCommitment candidate) commitment) hs
    = Some h.
Proof.
  induction hs as [|c hs IH]; simpl; [tauto|].
  destruct (String.eqb_spec (holder_holderCommitment c) commitment)
    as [E|E]; [eauto|].
  intros [H|H]; [congruence|]. now apply IH.
Qed.

(** C10, as amended.  When a holder is set up for the imported zkCert's
    holder commitment and a stored zkCert has the imported one's leafHash,
    the method returns [ZkCertAlreadyImported] and leaves the persisted
    state unchanged; whatever the request, stored leafHashes that were
    pairwise distinct before the call stay so. *)
Theorem C10_import_deduplicates
        (persisted : SnapState) (importParams : ImportRequestParams)
        (confirm : bool) :
  (In (holderCommitment (zkCert importParams))
      (map holder_holderCommitment (holders persisted)) ->
   In (leafHash (zkCert importParams)) (map leafHash (zkCerts persisted)) ->
   import persisted importParams confirm
   = (Ok ZkCertAlreadyImported, persisted))
  /\ (In (leafHash (zkCert importParams))
         (map leafHash (zkCerts persisted)) ->
      snd (import persisted importParams confirm) = persisted)
  /\ (NoDup (map leafHash (zkCerts persisted)) ->
      NoDup (map leafHash
                 (zkCerts (snd (import persisted importParams confirm))))).
Proof.
  unfold processRpcRequest_ImportZkCert. split; [|split].
  - intros Hholder Hleaf.
    destruct (@find_holder_some _ _ Hholder) as [h ->].
    destruct (@find_leafHash_some _ _ Hleaf) as [c ->]. reflexivity.
  - intros Hleaf.
    destruct (@find_leafHash_some _ _ Hleaf) as [c ->].
    destruct (find _ (holders persisted)); reflexivity.
  - intros Hnd.
    destruct (find _ (holders persisted)); [|exact Hnd].
    destruct (find _ (zkCerts persisted)) eqn:Hfind; [exact Hnd|].
    destruct confirm; cbn [negb snd zkCerts]; [|exact Hnd].
    rewrite map_app. cbn [map].
    apply NoDup_app; [exact Hnd | repeat constructor; simpl; tauto |].
    intros lh Hin [<-|[]].
    exact (@find_leafHash_none _ _ Hfind Hin).
Qed.

End SnapFacts.

(** C10 fails when no holder is set up for the imported certificate's
    holder commitment: the holder check comes first and throws, although a
    certificate with the same leafHash is stored. *)
Lemma C10_counterexample_missing_holder :
  In (leafHash (zkCert sameLeafOtherHolder))
     (map leafHash (zkCerts oneCertState))
  /\ processRpcRequest_ImportZkCert "rejected" oneCertState
       sameLeafOtherHolder true
     = (Throw (HolderNotFound "B"), oneCertState)
  /\ fst (processRpcRequest_ImportZkCert "rejected" oneCertState
            sameLeafOtherHolder true)
     <> Ok ZkCertAlreadyImported.
Proof.
  split; [simpl; auto|]. split; [reflexivity|]. discriminate.
Qed.

Lemma C10_witness :
  processRpcRequest_ImportZkCert "rejected" oneCertState
    {| zkCert := storedCert; listZkCerts := Some true |} true
  = (Ok ZkCertAlreadyImported, oneCertState).
Proof.
  apply (proj1 (C10_import_deduplicates "rejected" oneCertState
                  {| zkCert := storedCert; listZkCerts := Some true |}
                  true)); simpl; auto.
Defined.

(* ================================================================== *)
(** ** Further properties of the tree *)
(* ================================================================== *)

Lemma indexOf_app_l a b x : In x a -> indexOf (a ++ b) x = indexOf a x.
Proof.
  induction a as [|y a IH]; intros Hin; [contradiction|].
  simpl. destruct (String.eqb_spec y x) as [E|E]; [reflexivity|].
  destruct Hin as [Hin|Hin]; [congruence|]. now rewrite IH.
Qed.

Lemma indexOf_present a x :
  In x a -> exists i, indexOf a x = Z.of_nat i /\ i < length a.
Proof.
  intros Hin. pose proof (indexOf_range a x) as Hr.
  destruct (Z.eq_dec (indexOf a x) (-1)) as [E|E].
  - apply indexOf_absent in E. tauto.
  - exists (Z.to_nat (indexOf a x)). lia.
Qed.

Lemma ceilDiv_mul m k : 0 < m -> ceilDiv (m * k) m = k.
Proof.
  intros Hm. unfold ceilDiv.
  replace (m * k + m - 1) with (m - 1 + k * m) by lia.
  rewrite Nat.div_add by lia. rewrite Nat.div_small by lia. lia.
Qed.

Section MerkleMore.
Variable poseidon : string -> string -> string.
Variable keccak : string.

Local Notation "'eh'" := (emptyHashes poseidon).
Local Notation "'par'" := (parents poseidon).
Local Notation "'lvl'" := (levelAt poseidon).
Local Notation "'fresh'" := (freshTree poseidon keccak).

(** The tree of a reachable state in closed form, with its leaf level. *)
Lemma reachable_levels d t n :
  reachable poseidon keccak d t n ->
  1 <= d ->
  exists level0,
    length level0 = n
    /\ nth_error (tree t) 0 = Some level0
    /\ (1 <= n -> tree t = map (lvl keccak level0) (seq 0 (S d))).
Proof.
  intros Hreach Hd.
  destruct (reachable_shape Hreach) as [[-> ->]|[Hn [level0 [Htree Hlen]]]].
  - exists []. split; [reflexivity|]. split; [|lia].
    cbn [freshTree tree]. rewrite nth_error_app1 by (rewrite repeat_length; lia).
    apply nth_error_repeat; lia.
  - exists level0. destruct (Nat.eqb_spec d 0); [lia|].
    split; [lia|]. split; [|auto].
    rewrite Htree. apply nth_error_levels. lia.
Qed.

Lemma insertLeaves_reachable d t n leaves :
  reachable poseidon keccak d t n ->
  exists t', insertLeaves poseidon t leaves = Ok t'.
Proof.
  intros Hreach. destruct leaves as [|x leaves]; [eexists; reflexivity|].
  pose proof (reachable_wellFormed Hreach) as Hwf.
  destruct (nth_error (tree t) 0) as [level0|] eqn:H0.
  - eexists. apply (insertLeaves_closed Hwf H0). discriminate.
  - apply nth_error_None in H0. destruct Hwf as [_ Hlen]. lia.
Qed.

(** X1.  On a reachable tree, inserting [a] and then [b] is inserting
    [a ++ b] in one call. *)
Theorem X1_insertLeaves_compose d t n a b :
  reachable poseidon keccak d t n ->
  (t1 <- insertLeaves poseidon t a ;; insertLeaves poseidon t1 b)
  = insertLeaves poseidon t (a ++ b)
  /\ exists t2, insertLeaves poseidon t (a ++ b) = Ok t2.
Proof.
  intros Hreach. split; [|eapply insertLeaves_reachable; eassumption].
  pose proof (reachable_wellFormed Hreach) as Hwf.
  destruct a as [|x a]; [reflexivity|].
  destruct (nth_error (tree t) 0) as [level0|] eqn:H0;
    [|apply nth_error_None in H0; destruct Hwf as [_ Hlen]; lia].
  rewrite (insertLeaves_closed Hwf H0 (leaves := x :: a)) by discriminate.
  cbn [bind].
  destruct b as [|y b].
  - rewrite app_nil_r.
    rewrite (insertLeaves_closed Hwf H0 (leaves := x :: a)) by discriminate.
    reflexivity.
  - rewrite (insertLeaves_closed Hwf H0 (leaves := (x :: a) ++ y :: b))
      by discriminate.
    erewrite insertLeaves_closed with (level0 := level0 ++ x :: a).
    + cbn [emptyLeaf depth emptyBranchLevels]. now rewrite <- app_assoc.
    + destruct Hwf as [Hebl Hlen]. split; [exact Hebl|].
      cbn [tree depth]. now rewrite length_map, length_seq.
    + cbn [tree depth]. apply nth_error_levels. lia.
    + discriminate.
Qed.

(** The proof [createProof] builds for a leaf stored at first position [i],
    and what verification makes of it. *)
Lemma proof_of_stored_leaf d t n level0 x i :
  reachable poseidon keccak d t n ->
  1 <= d ->
  nth_error (tree t) 0 = Some level0 ->
  indexOf level0 x = Z.of_nat i ->
  createProof t x
  = Ok {| leaf := x;
          pathElements := map (siblingAt t i) (seq 0 d);
          leafIndex := Z.of_nat i |}
  /\ forall k, k <= d ->
       exists v,
         nth_error (lvl keccak level0 k) (i / 2 ^ k) = Some v
         /\ (k = d ->
             getMerkleRootFromProof poseidon keccak
               {| leaf := x;
                  pathElements := map (siblingAt t i) (seq 0 d);
                  leafIndex := Z.of_nat i |} = Ok v).
Proof.
  intros Hreach Hd H0 Hi.
  pose proof (reachable_wellFormed Hreach) as [Hebl Hlen].
  destruct (reachable_depth Hreach) as [Hdep He].
  destruct (@indexOf_first _ _ _ Hi) as [Hnth _].
  destruct (reachable_levels Hreach Hd) as [l0 [Hl0 [H0' Htree]]].
  rewrite H0 in H0'. injection H0' as <-.
  assert (1 <= n) as Hn.
  { assert (i < length level0) by (apply nth_error_Some; congruence). lia. }
  specialize (Htree Hn). subst d.
  rewrite He in Hebl. split.
  - apply (@createProof_closed poseidon keccak t level0 x i); auto. lia.
  - intros k Hk.
    destruct (@verifyLoop_closed poseidon t keccak level0 x i k
                Htree Hebl Hnth Hk) as [v [Hloop Hnode]].
    exists v. split; [exact Hnode|]. intros ->.
    unfold getMerkleRootFromProof.
    change 0%Z with (Z.of_nat 0). rewrite newMerkleTree_closed. cbn [bind].
    cbn [pathElements leafIndex leaf]. rewrite length_map, length_seq.
    exact Hloop.
Qed.

(** X2.  In a reachable tree of depth [d >= 1], however many [insertLeaves]
    calls built it, the proof of a stored leaf recomputes the entry of the
    top level above the leaf's first position, [tree[d][floor(i / 2^d)]];
    while the tree holds at most [2^d] leaves that entry is the root. *)
Theorem X2_proof_recomputes_top_entry d t n x :
  reachable poseidon keccak d t n ->
  1 <= d ->
  (exists level0, nth_error (tree t) 0 = Some level0 /\ In x level0) ->
  exists p (i : nat) r top,
    createProof t x = Ok p
    /\ leafIndex p = Z.of_nat i
    /\ getMerkleRootFromProof poseidon keccak p = Ok r
    /\ nth_error (tree t) d = Some top
    /\ nth_error top (i / 2 ^ d) = Some r
    /\ (n <= 2 ^ d -> root t = Ok (Some r)).
Proof.
  intros Hreach Hd [level0 [H0 Hin]].
  destruct (@indexOf_present _ _ Hin) as [i [Hi Hlt]].
  destruct (@proof_of_stored_leaf _ _ _ _ _ _ Hreach Hd H0 Hi)
    as [Hproof Hver].
  destruct (Hver d (le_n d)) as [r [Hnode Hroot]].
  destruct (reachable_levels Hreach Hd) as [l0 [Hl0 [H0' Htree]]].
  rewrite H0 in H0'. injection H0' as <-.
  destruct (reachable_depth Hreach) as [Hdep _].
  assert (nth_error (tree t) d = Some (lvl keccak level0 d)) as Htop
    by (rewrite Htree by lia; apply nth_error_levels; lia).
  eexists. exists i, r, (lvl keccak level0 d).
  split; [exact Hproof|]. split; [reflexivity|].
  split; [now apply Hroot|]. split; [exact Htop|]. split; [exact Hnode|].
  intros Hcap. unfold root. rewrite Hdep, Htop.
  rewrite Nat.div_small in Hnode by lia. now rewrite Hnode.
Qed.

(** X3.  A proof built from a reachable tree has no [undefined] among its
    path elements. *)
Theorem X3_path_elements_defined d t n x p :
  reachable poseidon keccak d t n ->
  createProof t x = Ok p ->
  Forall (fun sibling => sibling <> None) (pathElements p).
Proof.
  intros Hreach Hp.
  pose proof (reachable_wellFormed Hreach) as [Hebl Hlen].
  destruct (reachable_depth Hreach) as [Hdep He].
  destruct (nth_error (tree t) 0) as [level0|] eqn:H0;
    [|apply nth_error_None in H0; lia].
  assert (In x level0) as Hin.
  { destruct (in_dec string_dec x level0) as [Hin|Hnin]; [exact Hin|].
    apply indexOf_absent in Hnin. unfold createProof in Hp.
    rewrite H0, Hnin in Hp. discriminate. }
  destruct (@indexOf_present _ _ Hin) as [i [Hi Hlt]].
  destruct (Nat.eq_dec d 0) as [Hd0|Hd0].
  - rewrite (@createProof_closed poseidon keccak t level0 x i) in Hp
      by (auto; lia).
    injection Hp as <-. cbn [pathElements]. rewrite Hdep, Hd0. constructor.
  - destruct (@proof_of_stored_leaf _ _ _ _ _ _ Hreach ltac:(lia) H0 Hi)
      as [Hproof Hver].
    rewrite Hproof in Hp. injection Hp as <-. cbn [pathElements].
    destruct (reachable_levels Hreach ltac:(lia)) as [l0 [Hl0 [H0' Htree]]].
    rewrite H0 in H0'. injection H0' as <-.
    apply Forall_forall. intros s Hs. apply in_map_iff in Hs.
    destruct Hs as [k [<- Hk]]. apply in_seq in Hk.
    unfold siblingAt. rewrite Htree by lia.
    rewrite nth_error_levels by lia.
    destruct (Hver k ltac:(lia)) as [v [Hnode _]].
    assert (i / 2 ^ k < length (lvl keccak level0 k)) as Hc
      by (apply nth_error_Some; congruence).
    rewrite Hebl, He, Hdep, nth_error_emptyHashes by lia.
    destruct (Nat.even (i / 2 ^ k)) eqn:Hev.
    + destruct (nth_error (lvl keccak level0 k) (i / 2 ^ k + 1));
        discriminate.
    + apply nth_error_Some. lia.
Qed.

(** X4.  Inserting further leaves does not move a stored leaf: its proof
    keeps the leaf index. *)
Theorem X4_leafIndex_stable d t n x p leaves :
  reachable poseidon keccak d t n ->
  createProof t x = Ok p ->
  exists t' p',
    insertLeaves poseidon t leaves = Ok t'
    /\ createProof t' x = Ok p'
    /\ leafIndex p' = leafIndex p.
Proof.
  intros Hreach Hp.
  pose proof (reachable_wellFormed Hreach) as Hwf.
  pose proof Hwf as [Hebl Hlen].
  destruct (nth_error (tree t) 0) as [level0|] eqn:H0;
    [|apply nth_error_None in H0; lia].
  assert (In x level0) as Hin.
  { destruct (in_dec string_dec x level0) as [Hin|Hnin]; [exact Hin|].
    apply indexOf_absent in Hnin. unfold createProof in Hp.
    rewrite H0, Hnin in Hp. discriminate. }
  destruct (@indexOf_present _ _ Hin) as [i [Hi Hlt]].
  rewrite (@createProof_closed poseidon keccak t level0 x i) in Hp
    by (auto; lia).
  injection Hp as <-. cbn [leafIndex].
  destruct leaves as [|y leaves].
  - exists t. eexists. split; [reflexivity|]. split.
    + apply (@createProof_closed poseidon keccak t level0 x i); auto. lia.
    + reflexivity.
  - eexists. eexists. split;
      [apply (insertLeaves_closed Hwf H0); discriminate|].
    split.
    + apply (@createProof_closed poseidon keccak _
               (level0 ++ y :: leaves) x i).
      * cbn [tree depth]. rewrite length_map, length_seq. lia.
      * cbn [tree depth]. apply nth_error_levels. lia.
      * rewrite indexOf_app_l by exact Hin. exact Hi.
    + reflexivity.
Qed.

(* -- padding and overflow ------------------------------------------- *)

Lemma parents_repeat e m :
  par e (repeat e m) = repeat (poseidon e e) ((m + 1) / 2).
Proof.
  assert (forall m,
             par e (repeat e m) = repeat (poseidon e e) ((m + 1) / 2)
             /\ par e (repeat e (S m))
                = repeat (poseidon e e) ((S m + 1) / 2)) as H.
  { clear m. induction m as [|m [IH1 IH2]].
    - split; reflexivity.
    - split; [exact IH2|].
      change (par e (repeat e (S (S m))))
        with (poseidon e e :: par e (repeat e m)).
      rewrite IH1.
      replace ((S (S m) + 1) / 2) with (S ((m + 1) / 2)) by dlia.
      reflexivity. }
  apply H.
Qed.

(** Trailing entries that equal the fallback hash up to the fallback of the
    level above. *)
Lemma parents_padded e cur :
  forall m, exists k,
    par e (cur ++ repeat e m) = par e cur ++ repeat (poseidon e e) k.
Proof.
  induction cur as [|a|a b rest IH] using list_pair_ind; intros m.
  - exists ((m + 1) / 2). apply parents_repeat.
  - destruct m as [|m].
    + exists 0. reflexivity.
    + exists ((m + 1) / 2). cbn [app repeat parents].
      now rewrite parents_repeat.
  - destruct (IH m) as [k Hk]. exists k. cbn [app parents]. now rewrite Hk.
Qed.

Lemma levelAt_padded e leaves m l :
  exists k,
    lvl e (leaves ++ repeat e m) l = lvl e leaves l ++ repeat (eh e l) k.
Proof.
  induction l as [|l [k IH]].
  - exists m. reflexivity.
  - cbn [levelAt]. rewrite IH.
    destruct (parents_padded (eh e l) (lvl e leaves l) k) as [k' Hk'].
    exists k'. exact Hk'.
Qed.

Lemma parents_app_even e a b :
  Nat.even (length a) = true -> par e (a ++ b) = par e a ++ par e b.
Proof.
  induction a as [|x|x y rest IH] using list_pair_ind; intros Hev.
  - reflexivity.
  - discriminate.
  - cbn [app parents]. rewrite IH; [reflexivity|].
    cbn [length] in Hev. now rewrite Nat.even_succ_succ in Hev.
Qed.

Lemma levelAt_app e a b l q :
  length a = 2 ^ l * q -> lvl e (a ++ b) l = lvl e a l ++ lvl e b l.
Proof.
  revert q. induction l as [|l IH]; intros q Hlen; [reflexivity|].
  cbn [levelAt].
  assert (length a = 2 ^ l * (2 * q)) as Hlen'
    by (rewrite Hlen, Nat.pow_succ_r'; lia).
  rewrite (IH _ Hlen'). apply parents_app_even.
  rewrite (@levelAt_length poseidon keccak), Hlen'.
  rewrite ceilDiv_mul by (apply pow2_pos; assumption).
  rewrite Nat.even_mul. reflexivity.
Qed.

Lemma root_after_insert d leaves :
  1 <= d ->
  leaves <> [] ->
  exists t r,
    insertLeaves poseidon (fresh d) leaves = Ok t
    /\ root t = Ok (Some r)
    /\ nth_error (lvl keccak leaves d) 0 = Some r.
Proof.
  intros Hd Hne.
  assert (nth_error (tree (fresh d)) 0 = Some []) as H0.
  { cbn [freshTree tree].
    rewrite nth_error_app1 by (rewrite repeat_length; lia).
    apply nth_error_repeat; lia. }
  pose proof (insertLeaves_closed (wellFormed_fresh poseidon keccak d)
                H0 Hne) as Hins.
  cbn [app freshTree emptyLeaf depth emptyBranchLevels] in Hins.
  assert (exists r, nth_error (lvl keccak leaves d) 0 = Some r) as [r Hr].
  { destruct (nth_error (lvl keccak leaves d) 0) as [r|] eqn:Hr; [eauto|].
    apply nth_error_None in Hr.
    rewrite (@levelAt_length poseidon keccak) in Hr.
    assert (1 <= ceilDiv (length leaves) (2 ^ d)); [|lia].
    apply (@ceilDiv_pos poseidon keccak).
    - destruct leaves; [congruence|simpl; lia].
    - apply pow2_pos; assumption. }
  eexists. exists r. split; [exact Hins|]. split; [|exact Hr].
  unfold root. cbn [tree depth]. rewrite nth_error_levels by lia.
  now rewrite Hr.
Qed.

(** X5.  The sparse tree has the root of the full one: a fresh tree of depth
    [d >= 1] given at most [2^d] leaves gets the same root as one given these
    leaves followed by copies of the empty leaf up to [2^d]. *)
Theorem X5_sparse_root_is_padded_root d leaves :
  1 <= d ->
  length leaves <= 2 ^ d ->
  exists t t' r,
    insertLeaves poseidon (fresh d) leaves = Ok t
    /\ insertLeaves poseidon (fresh d)
         (leaves ++ repeat keccak (2 ^ d - length leaves)) = Ok t'
    /\ root t = Ok (Some r)
    /\ root t' = Ok (Some r).
Proof.
  intros Hd Hlen.
  set (m := 2 ^ d - length leaves).
  assert (0 < 2 ^ d) as Hpow by (apply pow2_pos; assumption).
  assert (leaves ++ repeat keccak m <> []) as Hne.
  { intros E. apply (f_equal (@length _)) in E.
    rewrite length_app, repeat_length in E. simpl in E. lia. }
  destruct (root_after_insert Hd Hne) as [t' [r [Hins' [Hroot' Hr']]]].
  destruct (levelAt_padded keccak leaves m d) as [k Hk].
  assert (length (lvl keccak (leaves ++ repeat keccak m) d) = 1) as Hone.
  { rewrite (@levelAt_length poseidon keccak), length_app, repeat_length.
    replace (length leaves + m) with (2 ^ d * 1) by lia.
    now apply ceilDiv_mul. }
  destruct leaves as [|x leaves].
  - exists (fresh d), t', r. split; [reflexivity|]. split; [exact Hins'|].
    split; [|exact Hroot'].
    assert (lvl keccak [] d = []) as Hnil.
    { apply length_zero_iff_nil.
      rewrite (@levelAt_length poseidon keccak). unfold ceilDiv. simpl.
      apply Nat.div_small. lia. }
    rewrite Hk, Hnil in Hr', Hone. cbn [app] in Hr', Hone.
    rewrite repeat_length in Hone. subst k. cbn in Hr'.
    injection Hr' as <-.
    unfold root. cbn [freshTree tree depth].
    rewrite nth_error_app2 by (rewrite repeat_length; lia).
    rewrite repeat_length, Nat.sub_diag. reflexivity.
  - destruct (@root_after_insert d (x :: leaves) Hd ltac:(discriminate))
      as [t [r0 [Hins [Hroot Hr]]]].
    exists t, t', r. split; [exact Hins|]. split; [exact Hins'|].
    split; [|exact Hroot'].
    rewrite Hk in Hr'. rewrite nth_error_app1 in Hr'
      by (apply nth_error_Some; congruence).
    rewrite Hroot. congruence.
Qed.

(** X6.  Nothing stops an insertion beyond the capacity [2^d], and the root
    does not see it: after [2^d] leaves, further leaves leave the root as it
    was. *)
Theorem X6_root_ignores_overflow d full extra :
  1 <= d ->
  length full = 2 ^ d ->
  exists t t' r,
    insertLeaves poseidon (fresh d) full = Ok t
    /\ insertLeaves poseidon (fresh d) (full ++ extra) = Ok t'
    /\ root t = Ok (Some r)
    /\ root t' = Ok (Some r).
Proof.
  intros Hd Hlen.
  assert (0 < 2 ^ d) as Hpow by (apply pow2_pos; assumption).
  assert (full <> []) as Hne by (destruct full; [simpl in Hlen; lia|discriminate]).
  assert (full ++ extra <> []) as Hne'
    by (destruct full; [congruence|discriminate]).
  destruct (root_after_insert Hd Hne) as [t [r [Hins [Hroot Hr]]]].
  destruct (root_after_insert Hd Hne') as [t' [r' [Hins' [Hroot' Hr']]]].
  exists t, t', r. split; [exact Hins|]. split; [exact Hins'|].
  split; [exact Hroot|].
  rewrite (@levelAt_app keccak full extra d 1) in Hr' by lia.
  rewrite nth_error_app1 in Hr' by (apply nth_error_Some; congruence).
  rewrite Hroot'. congruence.
Qed.

(* -- the leaf index in verification ---------------------------------- *)

Lemma verifyFold_low_bits idx idx' path :
  forall i node,
    (forall j, i <= j < i + length path ->
               Z.testbit idx (Z.of_nat j) = Z.testbit idx' (Z.of_nat j)) ->
    verifyFold poseidon idx i path node
    = verifyFold poseidon idx' i path node.
Proof.
  induction path as [|s path IH]; intros i node Hbits; [reflexivity|].
  cbn [verifyFold]. cbn [length] in Hbits.
  rewrite (Hbits i) by lia.
  destruct (if Z.testbit idx' (Z.of_nat i)
            then calculateNodeHash poseidon s (Some node)
            else calculateNodeHash poseidon (Some node) s) as [next|e];
    cbn [bind]; [|reflexivity].
  apply IH. intros j Hj. apply Hbits. lia.
Qed.

(** X16.  Verification reads only the low [len(pathElements)] bits of a
    non-negative leaf index: adding a multiple of [2^len] to the index does
    not change the recomputed root. *)
Theorem X16_index_high_bits_ignored (proof : MerkleProof) (k : Z) :
  (0 <= leafIndex proof)%Z ->
  (0 <= k)%Z ->
  getMerkleRootFromProof poseidon keccak
    {| leaf := leaf proof;
       pathElements := pathElements proof;
       leafIndex :=
         leafIndex proof
         + k * 2 ^ Z.of_nat (length (pathElements proof)) |}
  = getMerkleRootFromProof poseidon keccak proof.
Proof.
  intros Hidx Hk. destruct proof as [lf path idx].
  cbn [leaf pathElements leafIndex] in *.
  assert (0 <= idx + k * 2 ^ Z.of_nat (length path))%Z as Hidx'
    by (pose proof (Z.pow_pos_nonneg 2 (Z.of_nat (length path))); nia).
  unfold getMerkleRootFromProof.
  change 0%Z with (Z.of_nat 0). rewrite newMerkleTree_closed. cbn [bind].
  cbn [leaf pathElements leafIndex].
  transitivity
    (verifyFold poseidon (idx + k * 2 ^ Z.of_nat (length path)) 0 path lf);
    [exact (@verifyLoop_is_fold poseidon _ Hidx' [] path lf)|].
  transitivity (verifyFold poseidon idx 0 path lf);
    [|symmetry; exact (@verifyLoop_is_fold poseidon _ Hidx [] path lf)].
  apply verifyFold_low_bits. intros j Hj.
  rewrite <- (Z.mod_pow2_bits_low (idx + k * 2 ^ Z.of_nat (length path))
                                  (Z.of_nat (length path))) by lia.
  rewrite Z.mod_add by (apply Z.pow_nonzero; lia).
  apply Z.mod_pow2_bits_low. lia.
Qed.

End MerkleMore.

(* ================================================================== *)
(** ** Objects as maps *)
(* ================================================================== *)

Lemma getProp_setProp {V} (o : list (string * V)) k v k' :
  getProp (setProp o k v) k'
  = if String.eqb k k' then Some v else getProp o k'.
Proof.
  induction o as [|[k0 v0] o IH]; simpl.
  - reflexivity.
  - destruct (String.eqb_spec k0 k) as [->|Hne]; simpl.
    + destruct (String.eqb_spec k k'); reflexivity.
    + rewrite IH. destruct (String.eqb_spec k0 k') as [->|Hne'];
        [|reflexivity].
      destruct (String.eqb_spec k k'); [congruence|reflexivity].
Qed.

Lemma readProp_own {V} (o : list (string * V)) k v :
  getProp o k = Some v -> readProp o k = OwnValue v.
Proof. intros H. unfold readProp. now rewrite H. Qed.

Lemma readProp_plain {V} (o : list (string * V)) k :
  getProp o k = None -> objectPrototype k = None -> readProp o k = Undefined.
Proof. intros H1 H2. unfold readProp. now rewrite H1, H2. Qed.

Lemma readProp_inherited {V} (o : list (string * V)) k inherited :
  getProp o k = None -> objectPrototype k = Some inherited ->
  readProp o k = InheritedValue inherited.
Proof. intros H1 H2. unfold readProp. now rewrite H1, H2. Qed.

Lemma objectPrototype_proto k :
  objectPrototype k = Some ThePrototype <-> k = "__proto__".
Proof.
  unfold objectPrototype.
  destruct (String.eqb_spec k "constructor") as [->|_];
    [split; discriminate|].
  destruct (String.eqb_spec k "__proto__") as [->|Hne]; [tauto|].
  destruct (existsb _ _); split; congruence.
Qed.

Lemma filter_all {A} (f : A -> bool) (l : list A) :
  (forall x, In x l -> f x = true) -> filter f l = l.
Proof.
  induction l as [|a l IH]; intros H; simpl; [reflexivity|].
  rewrite (H a) by now left. rewrite IH; [reflexivity|].
  intros x Hx. apply H. now right.
Qed.

Lemma NoDup_map_filter {A B} (g : A -> B) (f : A -> bool) (l : list A) :
  NoDup (map g l) -> NoDup (map g (filter f l)).
Proof.
  induction l as [|a l IH]; intros Hnd; simpl; [constructor|].
  simpl in Hnd. inversion Hnd as [|? ? Hnotin Hnd']; subst.
  destruct (f a); [|auto]. simpl. constructor; [|auto].
  intros Hin. apply Hnotin. apply in_map_iff in Hin.
  destruct Hin as [x [Hx Hin]]. apply filter_In in Hin.
  apply in_map_iff. exists x. tauto.
Qed.

(* ================================================================== *)
(** ** The storage overview, the storage hashes and the request handler *)
(* ================================================================== *)

Section SnapHandlerFacts.

Variable RejectedConfirm : string.
Variable MissingHolder : string.
Variable UnknownMethod : string.
Variable zkCertStandardOf : ZkCert -> string.
Variable providerAx providerAy : ZkCert -> string.
Variable expirationDateOf : ZkCert -> Z.
Variable verificationLevelOf : ZkCert -> string.
Variable ZkCertStandard_zkKYC : string.
Variable stringify : ZkCert -> string.
Variable keccak256 : string -> string.
Variable nativeFunctionText : string -> string.
Variable withMerkleProof : string -> MerkleProof -> string.
Variable generateZkKycProof :
  string -> string -> ZkCert -> HolderData -> ZkCert -> Result string.

Local Notation "'ofStandard'" :=
  (fun standard : string =>
     filter (fun zkCert => String.eqb (zkCertStandardOf zkCert) standard)).
Local Notation "'disclosure'" :=
  (disclosureData zkCertStandardOf providerAx providerAy expirationDateOf
                  verificationLevelOf ZkCertStandard_zkKYC).
Local Notation "'handle'" :=
  (processRpcRequest RejectedConfirm MissingHolder UnknownMethod
                     zkCertStandardOf providerAx providerAy expirationDateOf
                     verificationLevelOf ZkCertStandard_zkKYC stringify
                     keccak256 nativeFunctionText withMerkleProof
                     generateZkKycProof).
Local Notation "'handleAll'" :=
  (processAll RejectedConfirm MissingHolder UnknownMethod
              zkCertStandardOf providerAx providerAy expirationDateOf
              verificationLevelOf ZkCertStandard_zkKYC stringify
              keccak256 nativeFunctionText withMerkleProof
              generateZkKycProof).
Local Notation "'update'" := (updateFirstMatch withMerkleProof).
Local Notation "'overview'" :=
  (getZkCertStorageOverview zkCertStandardOf providerAx providerAy
     expirationDateOf verificationLevelOf ZkCertStandard_zkKYC).
Local Notation "'chain'" :=
  (fold_left (fun h zkCert => keccak256 (h ++ stringify zkCert))).

(* -- getZkCertStorageOverview --------------------------------------- *)

Lemma overview_loop (certs : list ZkCert) :
  forall shared,
  Forall (fun zkCert => objectPrototype (zkCertStandardOf zkCert) = None)
         certs ->
  exists o,
    forEach certs shared
      (fun sharedZkCerts zkCert =>
         let standard := zkCertStandardOf zkCert in
         let sharedZkCerts :=
           match readProp sharedZkCerts standard with
           | Undefined => setProp sharedZkCerts standard []
           | _ => sharedZkCerts
           end in
         match readProp sharedZkCerts standard with
         | OwnValue entries =>
             Ok (setProp sharedZkCerts standard
                         (entries ++ [disclosure zkCert]))
         | InheritedValue _ => Throw TypeError
         | Undefined => Throw TypeError
         end) = Ok o
    /\ forall standard,
         getProp o standard
         = match ofStandard standard certs with
           | [] => getProp shared standard
           | group =>
               Some (match getProp shared standard with
                     | Some entries => entries
                     | None => []
                     end ++ map disclosure group)
           end.
Proof.
  induction certs as [|c certs IH]; intros shared Hplain.
  - exists shared. split; [reflexivity|]. reflexivity.
  - inversion Hplain as [|? ? Hc Hrest]; subst.
    cbn [forEach]. cbv zeta.
    set (shared1 := match readProp shared (zkCertStandardOf c) with
                    | Undefined => setProp shared (zkCertStandardOf c) []
                    | _ => shared
                    end).
    assert (getProp shared1 (zkCertStandardOf c)
            = Some (match getProp shared (zkCertStandardOf c) with
                    | Some entries => entries
                    | None => []
                    end)) as H1.
    { unfold shared1.
      destruct (getProp shared (zkCertStandardOf c)) eqn:E.
      - rewrite (readProp_own _ _ E). exact E.
      - rewrite (readProp_plain _ _ E Hc).
        rewrite getProp_setProp, String.eqb_refl. reflexivity. }
    assert (forall s, s <> zkCertStandardOf c ->
                      getProp shared1 s = getProp shared s) as H2.
    { intros s Hs. unfold shared1.
      destruct (readProp shared (zkCertStandardOf c)); try reflexivity.
      rewrite getProp_setProp.
      destruct (String.eqb_spec (zkCertStandardOf c) s);
        [congruence|reflexivity]. }
    rewrite (readProp_own _ _ H1). cbn [bind].
    destruct (IH (setProp shared1 (zkCertStandardOf c)
                    (match getProp shared (zkCertStandardOf c) with
                     | Some entries => entries
                     | None => []
                     end ++ [disclosure c])) Hrest) as [o [Ho Hget]].
    exists o. split; [exact Ho|].
    intros s. rewrite Hget, getProp_setProp. cbn [filter].
    destruct (String.eqb_spec (zkCertStandardOf c) s) as [<-|Hne].
    + destruct (filter _ certs) as [|g gs]; cbn [map app].
      * reflexivity.
      * now rewrite <- app_assoc.
    + rewrite (H2 s) by congruence. reflexivity.
Qed.

Lemma overview_loop_throws (certs : list ZkCert) :
  forall shared,
  (forall k, objectPrototype k <> None -> getProp shared k = None) ->
  Exists (fun zkCert => objectPrototype (zkCertStandardOf zkCert) <> None)
         certs ->
  forEach certs shared
    (fun sharedZkCerts zkCert =>
       let standard := zkCertStandardOf zkCert in
       let sharedZkCerts :=
         match readProp sharedZkCerts standard with
         | Undefined => setProp sharedZkCerts standard []
         | _ => sharedZkCerts
         end in
       match readProp sharedZkCerts standard with
       | OwnValue entries =>
           Ok (setProp sharedZkCerts standard
                       (entries ++ [disclosure zkCert]))
       | InheritedValue _ => Throw TypeError
       | Undefined => Throw TypeError
       end) = Throw TypeError.
Proof.
  induction certs as [|c certs IH]; intros shared Hown Hex;
    [inversion Hex|].
  cbn [forEach]. cbv zeta.
  destruct (objectPrototype (zkCertStandardOf c)) as [inherited|] eqn:Hc.
  - assert (getProp shared (zkCertStandardOf c) = None) as E
        by (apply Hown; congruence).
    rewrite (readProp_inherited _ _ E Hc).
    rewrite (readProp_inherited _ _ E Hc). reflexivity.
  - assert (Exists (fun zkCert =>
                      objectPrototype (zkCertStandardOf zkCert) <> None)
                   certs) as Hex'
        by (inversion Hex; subst; [congruence|assumption]).
    set (shared1 := match readProp shared (zkCertStandardOf c) with
                    | Undefined => setProp shared (zkCertStandardOf c) []
                    | _ => shared
                    end).
    assert (exists entries,
               getProp shared1 (zkCertStandardOf c) = Some entries)
      as [entries H1].
    { unfold shared1.
      destruct (getProp shared (zkCertStandardOf c)) as [entries|] eqn:E.
      - rewrite (readProp_own _ _ E). eauto.
      - rewrite (readProp_plain _ _ E Hc).
        rewrite getProp_setProp, String.eqb_refl. eauto. }
    assert (forall k, objectPrototype k <> None -> getProp shared1 k = None)
      as Hown1.
    { intros k Hk. unfold shared1.
      destruct (readProp shared (zkCertStandardOf c)); auto.
      rewrite getProp_setProp.
      destruct (String.eqb_spec (zkCertStandardOf c) k); [congruence|auto]. }
    rewrite (readProp_own _ _ H1). cbn [bind]. apply IH; [|exact Hex'].
    intros k Hk. rewrite getProp_setProp.
    destruct (String.eqb_spec (zkCertStandardOf c) k); [congruence|auto].
Qed.

(** X12.  [getZkCertStorageOverview] groups by standard unless a standard
    is the name of something objects inherit, such as [constructor] or
    [toString].  With no such standard among the zkCerts it returns an
    object in which a standard no zkCert has is absent and any other
    standard lists the disclosure data of its zkCerts, one entry per zkCert,
    in storage order; with one such standard it throws a [TypeError]. *)
Theorem X12_overview_groups_by_standard (certs : list ZkCert) :
  (Forall (fun zkCert => objectPrototype (zkCertStandardOf zkCert) = None)
          certs ->
   exists o,
     overview certs = Ok o
     /\ forall standard,
          getProp o standard
          = match ofStandard standard certs with
            | [] => None
            | group => Some (map disclosure group)
            end)
  /\ (Exists (fun zkCert => objectPrototype (zkCertStandardOf zkCert) <> None)
             certs ->
      overview certs = Throw TypeError).
Proof.
  split.
  - intros Hplain. destruct (overview_loop [] Hplain) as [o [Ho Hget]].
    exists o. split; [exact Ho|]. intros s. rewrite Hget. reflexivity.
  - intros Hex. apply overview_loop_throws; [reflexivity|exact Hex].
Qed.

(* -- getZkCertStorageHashes ----------------------------------------- *)

Lemma hashes_loop origin (certs : list ZkCert) :
  forall hashes standard,
    getProp
      (fold_left
         (fun storageHashes zkCert =>
            let standard := zkCertStandardOf zkCert in
            let storageHashes :=
              match readProp storageHashes standard with
              | Undefined =>
                  setProp storageHashes standard (keccak256 origin)
              | _ => storageHashes
              end in
            let previous :=
              match readProp storageHashes standard with
              | OwnValue h => h
              | InheritedValue inherited =>
                  inheritedText nativeFunctionText inherited
              | Undefined => "undefined"
              end in
            assignString storageHashes standard
                         (keccak256 (previous ++ stringify zkCert)))
         certs hashes) standard
    = if String.eqb standard "__proto__" then getProp hashes standard
      else
        match ofStandard standard certs with
        | [] => getProp hashes standard
        | group =>
            Some (chain group
                    (match getProp hashes standard with
                     | Some h => h
                     | None =>
                         match objectPrototype standard with
                         | Some inherited =>
                             inheritedText nativeFunctionText inherited
                         | None => keccak256 origin
                         end
                     end))
        end.
Proof.
  induction certs as [|c certs IH]; intros hashes s.
  { cbn [fold_left filter]. now destruct (String.eqb s "__proto__"). }
  cbn [fold_left]. cbv zeta. rewrite IH. clear IH.
  set (k := zkCertStandardOf c).
  set (hashes1 := match readProp hashes k with
                  | Undefined => setProp hashes k (keccak256 origin)
                  | _ => hashes
                  end).
  set (previous := match readProp hashes1 k with
                   | OwnValue h => h
                   | InheritedValue inherited =>
                       inheritedText nativeFunctionText inherited
                   | Undefined => "undefined"
                   end).
  assert (previous
          = match getProp hashes k with
            | Some h => h
            | None =>
                match objectPrototype k with
                | Some inherited =>
                    inheritedText nativeFunctionText inherited
                | None => keccak256 origin
                end
            end) as Hprev.
  { unfold previous, hashes1.
    destruct (getProp hashes k) as [h|] eqn:E.
    - rewrite (readProp_own _ _ E). now rewrite (readProp_own _ _ E).
    - destruct (objectPrototype k) as [inherited|] eqn:Hk.
      + rewrite (readProp_inherited _ _ E Hk).
        now rewrite (readProp_inherited _ _ E Hk).
      + rewrite (readProp_plain _ _ E Hk).
        unfold readProp. now rewrite getProp_setProp, String.eqb_refl. }
  assert (forall s', s' <> k -> getProp hashes1 s' = getProp hashes s')
    as Hother.
  { intros s' Hs. unfold hashes1.
    destruct (readProp hashes k); try reflexivity.
    rewrite getProp_setProp.
    destruct (String.eqb_spec k s'); [congruence|reflexivity]. }
  cbn [filter]. fold k.
  destruct (String.eqb_spec s "__proto__") as [Hs|Hs].
  - unfold assignString.
    destruct (String.eqb_spec k "__proto__") as [Hk|Hk].
    + unfold hashes1.
      assert (objectPrototype k = Some ThePrototype) as Hp
          by now apply objectPrototype_proto.
      destruct (getProp hashes k) as [h|] eqn:E.
      * now rewrite (readProp_own _ _ E).
      * now rewrite (readProp_inherited _ _ E Hp).
    + rewrite getProp_setProp.
      destruct (String.eqb_spec k s); [congruence|].
      apply Hother. congruence.
  - unfold assignString.
    destruct (String.eqb_spec k s) as [Hks|Hks].
    + destruct (String.eqb_spec k "__proto__"); [congruence|].
      rewrite getProp_setProp.
      destruct (String.eqb_spec k s); [|congruence].
      rewrite Hprev, Hks.
      destruct (filter _ certs); reflexivity.
    + assert (getProp (if String.eqb k "__proto__" then hashes1
                       else setProp hashes1 k
                              (keccak256 (previous ++ stringify c))) s
              = getProp hashes s) as Hsame.
      { destruct (String.eqb k "__proto__").
        - apply Hother. congruence.
        - rewrite getProp_setProp.
          destruct (String.eqb_spec k s); [congruence|].
          apply Hother. congruence. }
      rewrite Hsame. reflexivity.
Qed.

(** X13.  The storage hash of a standard is the hash chain over the zkCerts
    of that standard alone, in storage order; zkCerts of other standards do
    not enter it, and a standard without zkCerts has no hash.  The chain
    starts from the hash of the origin unless the standard is the name of
    something objects inherit: then the salt is skipped and the chain
    starts from that value's text, and under [__proto__] no hash is stored
    at all. *)
Theorem X13_storage_hash_per_standard (certs : list ZkCert)
        (origin standard : string) :
  getProp (getZkCertStorageHashes zkCertStandardOf stringify keccak256
             nativeFunctionText certs origin) standard
  = if String.eqb standard "__proto__" then None
    else
      match ofStandard standard certs with
      | [] => None
      | group =>
          Some (chain group
                  (match objectPrototype standard with
                   | Some inherited =>
                       inheritedText nativeFunctionText inherited
                   | None => keccak256 origin
                   end))
      end.
Proof.
  unfold getZkCertStorageHashes. rewrite hashes_loop. reflexivity.
Qed.

(* -- UpdateMerkleProof ---------------------------------------------- *)

Lemma update_keeps_keys certs mp certs' :
  update certs mp = Some certs' ->
  map leafHash certs' = map leafHash certs
  /\ map holderCommitment certs' = map holderCommitment certs.
Proof.
  revert certs'; induction certs as [|c certs IH]; intros certs' H;
    simpl in H; [discriminate|].
  destruct (String.eqb (leafHash c) (leaf mp)).
  - injection H as <-. split; reflexivity.
  - destruct (update certs mp) as [rest'|]; [|discriminate].
    injection H as <-. destruct (IH _ eq_refl) as [H1 H2].
    simpl. now rewrite H1, H2.
Qed.

Lemma update_found certs mp :
  In (leaf mp) (map leafHash certs) <-> update certs mp <> None.
Proof.
  induction certs as [|c certs IH]; simpl; [tauto|].
  destruct (String.eqb_spec (leafHash c) (leaf mp)) as [E|E].
  - split; [discriminate|auto].
  - destruct (update certs mp).
    + split; [discriminate|]. intros _. right. apply IH. discriminate.
    + split; [|congruence]. intros [H|H]; [congruence|].
      apply IH in H. congruence.
Qed.

Lemma update_loop proofs :
  forall certs,
    (forall certs',
        forEach proofs certs
          (fun certs merkleProof =>
             match update certs merkleProof with
             | Some certs' => Ok certs'
             | None => Throw (ZkCertNotInWallet (leaf merkleProof))
             end) = Ok certs' ->
        map leafHash certs' = map leafHash certs
        /\ map holderCommitment certs' = map holderCommitment certs)
    /\ ((exists certs',
            forEach proofs certs
              (fun certs merkleProof =>
                 match update certs merkleProof with
                 | Some certs' => Ok certs'
                 | None => Throw (ZkCertNotInWallet (leaf merkleProof))
                 end) = Ok certs')
        <-> forall mp, In mp proofs -> In (leaf mp) (map leafHash certs)).
Proof.
  induction proofs as [|mp proofs IH]; intros certs.
  - split.
    + intros certs' H. injection H as <-. auto.
    + split; [intros _ mp []|]. intros _. exists certs. reflexivity.
  - cbn [forEach].
    destruct (update certs mp) as [certs1|] eqn:Hup; cbn [bind].
    + destruct (update_keeps_keys _ _ Hup) as [K1 K2].
      destruct (IH certs1) as [IHa IHb]. split.
      * intros certs' H. destruct (IHa _ H) as [H1 H2].
        split; congruence.
      * rewrite IHb, K1. split.
        -- intros H mp' [<-|Hin]; [|auto].
           apply update_found. congruence.
        -- intros H mp' Hin. apply H. now right.
    + split; [discriminate|]. split.
      * intros [certs' H]. discriminate.
      * intros H. exfalso.
        assert (update certs mp <> None)
          by (apply update_found, H; now left).
        congruence.
Qed.

(** X11.  [UpdateMerkleProof], once confirmed, succeeds exactly when the
    leaf of every proof is the leafHash of a stored zkCert.  A failed
    update persists nothing, also of the proofs handled before the missing
    one; a successful one leaves holders, leaf hashes and holder commitments
    of the stored zkCerts as they were. *)
Theorem X11_update_all_or_nothing
        (persisted : SnapState) (origin : string)
        (proofs : list MerkleProof) (world : Interaction) :
  dialogAnswer world = true ->
  (fst (handle persisted origin (UpdateMerkleProof proofs) world)
   = Ok MerkleProofsUpdated
   <-> forall mp, In mp proofs ->
                  In (leaf mp) (map leafHash (zkCerts persisted)))
  /\ (fst (handle persisted origin (UpdateMerkleProof proofs) world)
      <> Ok MerkleProofsUpdated ->
      snd (handle persisted origin (UpdateMerkleProof proofs) world)
      = persisted)
  /\ holders (snd (handle persisted origin (UpdateMerkleProof proofs) world))
     = holders persisted
  /\ map leafHash
         (zkCerts (snd (handle persisted origin
                          (UpdateMerkleProof proofs) world)))
     = map leafHash (zkCerts persisted)
  /\ map holderCommitment
         (zkCerts (snd (handle persisted origin
                          (UpdateMerkleProof proofs) world)))
     = map holderCommitment (zkCerts persisted).
Proof.
  intros Hc. cbn [processRpcRequest]. rewrite Hc. cbn [negb].
  destruct (update_loop proofs (zkCerts persisted)) as [Hkeys Hiff].
  destruct (forEach proofs (zkCerts persisted) _) as [certs|e] eqn:Hloop.
  - destruct (Hkeys _ eq_refl) as [K1 K2]. cbn [fst snd holders zkCerts].
    split; [|split; [|split; [|split]]]; auto.
    + split; [intros _; apply Hiff; eauto|reflexivity].
    + intros H. congruence.
  - cbn [fst snd]. split; [|split; [|split; [|split]]]; auto.
    split; [discriminate|]. intros H. apply Hiff in H.
    destruct H as [certs' H]. discriminate.
Qed.

(* -- every request --------------------------------------------------- *)

Lemma handle_unchanged
      (persisted : SnapState) (origin : string)
      (request : RpcRequest) (world : Interaction) :
  dialogAnswer world = false \/ changesStorage request = false ->
  snd (handle persisted origin request world) = persisted.
Proof.
  intros H. destruct request; cbn [processRpcRequest changesStorage] in *;
    try (destruct H as [H|H]; [rewrite H|discriminate]); cbn [negb];
    try reflexivity.
  - destruct userAddress, zkCertStandard; try reflexivity.
    destruct (negb (dialogAnswer world)); [reflexivity|].
    destruct (selectZkCertOutcome world); [|reflexivity].
    destruct (find _ (holders persisted)); [|reflexivity].
    destruct (find _ (zkCerts persisted)); reflexivity.
  - unfold processRpcRequest_ImportZkCert.
    destruct (find _ (holders persisted)); [|reflexivity].
    destruct (find _ (zkCerts persisted)); reflexivity.
  - destruct (negb (dialogAnswer world)); [reflexivity|].
    destruct (selectZkCertOutcome world); reflexivity.
  - destruct (holders persisted); [reflexivity|].
    destruct (negb (dialogAnswer world)); reflexivity.
  - destruct (negb (dialogAnswer world)); reflexivity.
  - destruct (negb (dialogAnswer world)); reflexivity.
  - destruct (selectZkCertOutcome world); reflexivity.
Qed.

Lemma import_step (persisted : SnapState) importParams confirm :
  let saved :=
    snd (processRpcRequest_ImportZkCert RejectedConfirm persisted
           importParams confirm) in
  holders saved = holders persisted
  /\ (NoDup (map leafHash (zkCerts persisted)) ->
      NoDup (map leafHash (zkCerts saved)))
  /\ (holders persisted = [] -> saved = persisted).
Proof.
  unfold processRpcRequest_ImportZkCert.
  destruct (find _ (holders persisted)) eqn:Hh.
  - destruct (find _ (zkCerts persisted)) eqn:Hfind; cbn [snd].
    + split; [reflexivity|]. split; [auto|reflexivity].
    + destruct confirm; cbn [negb snd holders zkCerts].
      * split; [reflexivity|]. split.
        -- intros Hnd. rewrite map_app. cbn [map].
           apply NoDup_app;
             [exact Hnd | repeat constructor; simpl; tauto |].
           intros lh Hin [<-|[]].
           exact (@find_leafHash_none _ _ Hfind Hin).
        -- intros E. rewrite E in Hh. discriminate.
      * split; [reflexivity|]. split; [auto|reflexivity].
  - cbn [snd]. split; [reflexivity|]. split; [auto|reflexivity].
Qed.

Lemma update_step (persisted : SnapState) origin proofs world :
  holders (snd (handle persisted origin (UpdateMerkleProof proofs) world))
  = holders persisted
  /\ map leafHash
         (zkCerts (snd (handle persisted origin
                          (UpdateMerkleProof proofs) world)))
     = map leafHash (zkCerts persisted).
Proof.
  cbn [processRpcRequest]. destruct (negb (dialogAnswer world)); [auto|].
  destruct (update_loop proofs (zkCerts persisted)) as [Hkeys _].
  destruct (forEach proofs (zkCerts persisted) _) as [certs|e]; [|auto].
  destruct (Hkeys _ eq_refl) as [K1 _]. auto.
Qed.

(** X7.  The persisted state changes only through the four storing requests
    and only with the user's confirmation: when a request changes it, the
    request is [ClearStorage], [ImportZkCert], [UpdateMerkleProof] or
    [DeleteZkCert] and the dialog was confirmed. *)
Theorem X7_no_change_without_confirmation
        (persisted : SnapState) (origin : string)
        (request : RpcRequest) (world : Interaction) :
  snd (handle persisted origin request world) <> persisted ->
  dialogAnswer world = true /\ changesStorage request = true.
Proof.
  intros Hchanged.
  destruct (dialogAnswer world) eqn:Hc.
  - split; [reflexivity|].
    destruct (changesStorage request) eqn:Hch; [reflexivity|].
    exfalso. apply Hchanged. apply handle_unchanged. now right.
  - exfalso. apply Hchanged. apply handle_unchanged. now left.
Qed.

Lemma handle_step (persisted : SnapState) origin request world :
  (NoDup (map leafHash (zkCerts persisted)) ->
   NoDup (map leafHash
              (zkCerts (snd (handle persisted origin request world)))))
  /\ (holders (snd (handle persisted origin request world))
      = holders persisted
      \/ (request = ClearStorage
          /\ holders (snd (handle persisted origin request world)) = []))
  /\ (holders persisted = [] ->
      incl (map leafHash
                (zkCerts (snd (handle persisted origin request world))))
           (map leafHash (zkCerts persisted))).
Proof.
  destruct (dialogAnswer world) eqn:Hc.
  2:{ rewrite handle_unchanged by (now left).
      split; [auto|]. split; [auto|]. intros _. apply incl_refl. }
  destruct (changesStorage request) eqn:Hch.
  2:{ rewrite handle_unchanged by (now right).
      split; [auto|]. split; [auto|]. intros _. apply incl_refl. }
  destruct request; try discriminate.
  - cbn [processRpcRequest]. rewrite Hc. cbn.
    split; [intros _; constructor|]. split; [auto|].
    intros _ x [].
  - cbn [processRpcRequest].
    pose proof (import_step persisted importParams (dialogAnswer world))
      as Hstep. cbv zeta in Hstep.
    destruct (processRpcRequest_ImportZkCert RejectedConfirm persisted
                importParams (dialogAnswer world)) as [outcome saved].
    cbn [snd] in *. destruct Hstep as [Hh [Hnd Hsame]].
    split; [exact Hnd|]. split; [auto|].
    intros E. rewrite (Hsame E). apply incl_refl.
  - destruct (update_step persisted origin proofs world) as [Hh Hl].
    rewrite Hl, Hh. split; [auto|]. split; [auto|].
    intros _. apply incl_refl.
  - cbn [processRpcRequest]. rewrite Hc.
    destruct (selectZkCertOutcome world) as [c|e]; cbn.
    + split; [apply NoDup_map_filter|]. split; [auto|].
      intros _ x Hx. apply in_map_iff in Hx. destruct Hx as [y [<- Hy]].
      apply filter_In in Hy. apply in_map. tauto.
    + split; [auto|]. split; [auto|]. intros _. apply incl_refl.
Qed.

(** X8.  No session of requests makes two stored zkCerts share a leafHash:
    leaf hashes that are pairwise distinct stay so. *)
Theorem X8_distinct_leafHashes_preserved
        (persisted : SnapState)
        (session : list (string * RpcRequest * Interaction)) :
  NoDup (map leafHash (zkCerts persisted)) ->
  NoDup (map leafHash (zkCerts (handleAll persisted session))).
Proof.
  revert persisted; induction session as [|[[origin request] world] rest IH];
    intros persisted Hnd; [exact Hnd|].
  cbn [processAll]. apply IH.
  now apply (handle_step persisted origin request world).
Qed.

(** X9.  The handler never writes a holder: the holders it saves are those
    of the state it received or, after [ClearStorage], none.  Given a state
    without holders it saves a state without holders and with no leafHash
    that was not stored already, and [ImportZkCert] throws the
    holder-not-found error and saves nothing. *)
Theorem X9_holders_never_added
        (persisted : SnapState) (origin : string)
        (request : RpcRequest) (world : Interaction) :
  (holders (snd (handle persisted origin request world)) = holders persisted
   \/ (request = ClearStorage
       /\ holders (snd (handle persisted origin request world)) = []))
  /\ (holders persisted = [] ->
      holders (snd (handle persisted origin request world)) = []
      /\ incl (map leafHash
                   (zkCerts (snd (handle persisted origin request world))))
              (map leafHash (zkCerts persisted))
      /\ forall importParams,
           request = ImportZkCert importParams ->
           handle persisted origin request world
           = (Throw (HolderNotFound
                       (holderCommitment (zkCert importParams))),
              persisted)).
Proof.
  destruct (handle_step persisted origin request world)
    as [_ [Hkeep Hincl]].
  split; [exact Hkeep|]. intros Hh.
  split; [destruct Hkeep as [E|[_ E]]; congruence|].
  split; [now apply Hincl|].
  intros importParams ->. cbn [processRpcRequest].
  unfold processRpcRequest_ImportZkCert. rewrite Hh. reflexivity.
Qed.

(** X10.  Importing a zkCert whose leafHash is new and then deleting it
    restores the persisted state. *)
Theorem X10_import_then_delete
        (persisted : SnapState) (importParams : ImportRequestParams)
        (selected : ZkCert) (origin origin' : string) :
  In (holderCommitment (zkCert importParams))
     (map holder_holderCommitment (holders persisted)) ->
  ~ In (leafHash (zkCert importParams)) (map leafHash (zkCerts persisted)) ->
  leafHash selected = leafHash (zkCert importParams) ->
  zkCerts (snd (handle persisted origin (ImportZkCert importParams)
                       {| dialogAnswer := true;
                          selectZkCertOutcome := Ok selected |}))
  = zkCerts persisted ++ [zkCert importParams]
  /\ handleAll persisted
       [(origin, ImportZkCert importParams,
         {| dialogAnswer := true; selectZkCertOutcome := Ok selected |});
        (origin', DeleteZkCert,
         {| dialogAnswer := true; selectZkCertOutcome := Ok selected |})]
     = persisted.
Proof.
  intros Hholder Hnew Hsel.
  destruct (@find_holder_some _ _ Hholder) as [h Hh].
  assert (find (fun candidate =>
                  String.eqb (leafHash candidate)
                             (leafHash (zkCert importParams)))
               (zkCerts persisted) = None) as Hfind.
  { destruct (find _ (zkCerts persisted)) as [c|] eqn:E; [|reflexivity].
    apply find_some in E. destruct E as [Hin E].
    apply String.eqb_eq in E. exfalso. apply Hnew. rewrite <- E.
    now apply in_map. }
  assert (snd (handle persisted origin (ImportZkCert importParams)
                      {| dialogAnswer := true;
                         selectZkCertOutcome := Ok selected |})
          = {| holders := holders persisted;
               zkCerts := zkCerts persisted ++ [zkCert importParams] |})
    as Himp.
  { cbn [processRpcRequest dialogAnswer].
    unfold processRpcRequest_ImportZkCert. rewrite Hh, Hfind. reflexivity. }
  split; [now rewrite Himp|].
  cbn [processAll]. rewrite Himp. cbn [snd processRpcRequest
    selectZkCertOutcome dialogAnswer negb holders zkCerts].
  rewrite filter_app. cbn [filter]. rewrite Hsel, String.eqb_refl.
  cbn [negb]. rewrite app_nil_r, filter_all.
  - now destruct persisted.
  - intros c Hc. apply negb_true_iff. apply String.eqb_neq.
    intros E. apply Hnew. rewrite <- E. now apply in_map.
Qed.

(** X14.  Deleting a zkCert whose leafHash is not stored answers
    [ZkCertDeleted] all the same and leaves the state as it was; deleting a
    stored one removes every stored zkCert with that leafHash and keeps the
    others in order. *)
Theorem X14_delete_by_leafHash
        (persisted : SnapState) (origin : string) (selected : ZkCert) :
  let world := {| dialogAnswer := true;
                  selectZkCertOutcome := Ok selected |} in
  fst (handle persisted origin DeleteZkCert world) = Ok ZkCertDeleted
  /\ ~ In (leafHash selected)
          (map leafHash
               (zkCerts (snd (handle persisted origin DeleteZkCert world))))
  /\ (forall zkCert,
         leafHash zkCert <> leafHash selected ->
         (In zkCert (zkCerts persisted)
          <-> In zkCert
                 (zkCerts (snd (handle persisted origin DeleteZkCert
                                       world)))))
  /\ (~ In (leafHash selected) (map leafHash (zkCerts persisted)) ->
      snd (handle persisted origin DeleteZkCert world) = persisted).
Proof.
  cbn [processRpcRequest selectZkCertOutcome dialogAnswer negb fst snd
       zkCerts].
  split; [reflexivity|]. split; [|split].
  - intros Hin. apply in_map_iff in Hin. destruct Hin as [c [E Hc]].
    apply filter_In in Hc. destruct Hc as [_ Hc].
    apply negb_true_iff, String.eqb_neq in Hc. congruence.
  - intros c Hne. rewrite filter_In. split; [|tauto].
    intros Hin. split; [exact Hin|].
    now apply negb_true_iff, String.eqb_neq.
  - intros Hnew. rewrite filter_all; [now destruct persisted|].
    intros c Hc. apply negb_true_iff, String.eqb_neq.
    intros E. apply Hnew. rewrite <- E. now apply in_map.
Qed.

(** X15.  [ExportZkCert], once confirmed, hands out the first stored zkCert
    with the selected zkCert's leafHash; when none is stored it returns
    [undefined] instead of throwing.  The state is not touched. *)
Theorem X15_export_lookup
        (persisted : SnapState) (origin : string) (selected : ZkCert) :
  let world := {| dialogAnswer := true;
                  selectZkCertOutcome := Ok selected |} in
  (In (leafHash selected) (map leafHash (zkCerts persisted)) ->
   exists stored,
     handle persisted origin ExportZkCert world
     = (Ok (ExportedZkCert (Some stored)), persisted)
     /\ In stored (zkCerts persisted)
     /\ leafHash stored = leafHash selected)
  /\ (~ In (leafHash selected) (map leafHash (zkCerts persisted)) ->
      handle persisted origin ExportZkCert world
      = (Ok (ExportedZkCert None), persisted)).
Proof.
  cbn [processRpcRequest selectZkCertOutcome dialogAnswer negb]. split.
  - intros Hin. destruct (@find_leafHash_some _ _ Hin) as [c Hc].
    exists c. rewrite Hc. split; [reflexivity|].
    apply find_some in Hc. destruct Hc as [Hc E].
    apply String.eqb_eq in E. auto.
  - intros Hnin.
    destruct (find _ (zkCerts persisted)) as [c|] eqn:Hc; [|reflexivity].
    apply find_some in Hc. destruct Hc as [Hc E].
    apply String.eqb_eq in E. exfalso. apply Hnin. rewrite <- E.
    now apply in_map.
Qed.

End SnapHandlerFacts.

(* ================================================================== *)
(** ** Concrete runs of the further properties *)
(* ================================================================== *)

Lemma reachable_fresh2 : reachable toyHash "E" 2 (freshTree toyHash "E" 2) 0.
Proof. apply reach_new. reflexivity. Defined.

Lemma X1_witness :
  reachable toyHash "E" 2 (freshTree toyHash "E" 2) 0
  /\ (t1 <- insertLeaves toyHash (freshTree toyHash "E" 2) ["L0"] ;;
      insertLeaves toyHash t1 ["L1"; "L2"])
     = insertLeaves toyHash (freshTree toyHash "E" 2) ["L0"; "L1"; "L2"].
Proof.
  split; [exact reachable_fresh2|].
  exact (proj1 (@X1_insertLeaves_compose toyHash "E" 2 _ 0
                  ["L0"] ["L1"; "L2"] reachable_fresh2)).
Defined.

Lemma X2_witness :
  reachable toyHash "E" 2 threeLeafTree 3
  /\ 1 <= 2
  /\ exists p (i : nat) r top,
       createProof threeLeafTree "L1" = Ok p
       /\ leafIndex p = Z.of_nat i
       /\ getMerkleRootFromProof toyHash "E" p = Ok r
       /\ nth_error (tree threeLeafTree) 2 = Some top
       /\ nth_error top (i / 2 ^ 2) = Some r
       /\ (3 <= 2 ^ 2 -> root threeLeafTree = Ok (Some r)).
Proof.
  assert (1 <= 2) as Hd by lia.
  split; [exact reachable_threeLeafTree|]. split; [exact Hd|].
  apply (@X2_proof_recomputes_top_entry toyHash "E" 2 threeLeafTree 3 "L1"
           reachable_threeLeafTree Hd).
  exists ["L0"; "L1"; "L2"]. split; [reflexivity|simpl; auto].
Defined.

Lemma X3_witness :
  reachable toyHash "E" 2 threeLeafTree 3
  /\ Forall (fun sibling : option string => sibling <> None)
            [Some "E"; Some "H(L0,L1)"].
Proof.
  split; [exact reachable_threeLeafTree|].
  exact (@X3_path_elements_defined toyHash "E" 2 threeLeafTree 3 "L2"
           {| leaf := "L2";
              pathElements := [Some "E"; Some "H(L0,L1)"];
              leafIndex := 2 |}
           reachable_threeLeafTree eq_refl).
Defined.

Lemma X4_witness :
  reachable toyHash "E" 2 threeLeafTree 3
  /\ exists t' p',
       insertLeaves toyHash threeLeafTree ["L3"] = Ok t'
       /\ createProof t' "L2" = Ok p'
       /\ leafIndex p' = 2%Z.
Proof.
  split; [exact reachable_threeLeafTree|].
  exact (@X4_leafIndex_stable toyHash "E" 2 threeLeafTree 3 "L2"
           {| leaf := "L2";
              pathElements := [Some "E"; Some "H(L0,L1)"];
              leafIndex := 2 |}
           ["L3"] reachable_threeLeafTree eq_refl).
Defined.

Lemma X5_witness :
  1 <= 2 /\ length ["L0"; "L1"; "L2"] <= 2 ^ 2
  /\ exists t t' r,
       insertLeaves toyHash (freshTree toyHash "E" 2) ["L0"; "L1"; "L2"]
       = Ok t
       /\ insertLeaves toyHash (freshTree toyHash "E" 2)
            (["L0"; "L1"; "L2"]
             ++ repeat "E" (2 ^ 2 - length ["L0"; "L1"; "L2"])) = Ok t'
       /\ root t = Ok (Some r)
       /\ root t' = Ok (Some r).
Proof.
  assert (1 <= 2) as Hd by lia.
  assert (length ["L0"; "L1"; "L2"] <= 2 ^ 2) as Hlen by (simpl; lia).
  split; [exact Hd|]. split; [exact Hlen|].
  exact (@X5_sparse_root_is_padded_root toyHash "E" 2 ["L0"; "L1"; "L2"]
           Hd Hlen).
Defined.

Lemma X6_witness :
  1 <= 1 /\ length ["A"; "B"] = 2 ^ 1
  /\ exists t t' r,
       insertLeaves toyHash (freshTree toyHash "E" 1) ["A"; "B"] = Ok t
       /\ insertLeaves toyHash (freshTree toyHash "E" 1)
            (["A"; "B"] ++ ["C"]) = Ok t'
       /\ root t = Ok (Some r)
       /\ root t' = Ok (Some r).
Proof.
  assert (1 <= 1) as Hd by lia.
  assert (length ["A"; "B"] = 2 ^ 1) as Hlen by reflexivity.
  split; [exact Hd|]. split; [exact Hlen|].
  exact (@X6_root_ignores_overflow toyHash "E" 1 ["A"; "B"] ["C"] Hd Hlen).
Defined.

(** Beyond the capacity the third leaf sits at level 1 next to the root. *)
Example overflow_tree :
  insertLeaves toyHash (freshTree toyHash "E" 1) ["A"; "B"; "C"]
  = Ok {| emptyLeaf := "E"; depth := 1;
          emptyBranchLevels := ["E"; "H(E,E)"];
          tree := [["A"; "B"; "C"]; ["H(A,B)"; "H(C,E)"]] |}.
Proof. reflexivity. Qed.

Lemma X16_witness :
  (0 <= 2)%Z /\ (0 <= 1)%Z
  /\ getMerkleRootFromProof toyHash "E"
       {| leaf := "L2"; pathElements := [Some "E"; Some "H(L0,L1)"];
          leafIndex := 2 + 1 * 2 ^ Z.of_nat 2 |}
     = getMerkleRootFromProof toyHash "E"
         {| leaf := "L2"; pathElements := [Some "E"; Some "H(L0,L1)"];
            leafIndex := 2 |}.
Proof.
  assert (0 <= 2)%Z as H0 by lia. assert (0 <= 1)%Z as H1 by lia.
  split; [exact H0|]. split; [exact H1|].
  exact (@X16_index_high_bits_ignored toyHash "E"
           {| leaf := "L2"; pathElements := [Some "E"; Some "H(L0,L1)"];
              leafIndex := 2 |} 1 H0 H1).
Defined.

Lemma X7_witness :
  snd (demoHandle oneCertState "site" ClearStorage (confirmed storedCert))
  <> oneCertState
  /\ dialogAnswer (confirmed storedCert) = true
  /\ changesStorage ClearStorage = true.
Proof.
  assert (snd (demoHandle oneCertState "site" ClearStorage
                 (confirmed storedCert)) <> oneCertState) as H
    by (vm_compute; discriminate).
  split; [exact H|].
  exact (@X7_no_change_without_confirmation
           "rejected" "missing holder" "unknown method"
           certificateBody (fun _ => "ax") (fun _ => "ay") (fun _ => 0%Z)
           (fun _ => "1") "kyc" leafHash demoKeccak demoNativeText
              demoWithProof
           demoGenerate oneCertState "site" ClearStorage
           (confirmed storedCert) H).
Defined.

Lemma X8_witness :
  NoDup (map leafHash (zkCerts oneCertState))
  /\ NoDup (map leafHash
                (zkCerts (demoHandleAll oneCertState
                            [("site",
                              ImportZkCert {| zkCert := newCert;
                                              listZkCerts := None |},
                              confirmed newCert);
                             ("site",
                              ImportZkCert {| zkCert := newCert;
                                              listZkCerts := None |},
                              confirmed newCert)]))).
Proof.
  assert (NoDup (map leafHash (zkCerts oneCertState))) as H
    by (repeat constructor; simpl; tauto).
  split; [exact H|].
  exact (@X8_distinct_leafHashes_preserved
           "rejected" "missing holder" "unknown method"
           certificateBody (fun _ => "ax") (fun _ => "ay") (fun _ => 0%Z)
           (fun _ => "1") "kyc" leafHash demoKeccak demoNativeText
              demoWithProof
           demoGenerate oneCertState _ H).
Defined.

Lemma X9_witness :
  holders noHolderState = []
  /\ demoHandle noHolderState "site"
       (ImportZkCert {| zkCert := newCert; listZkCerts := Some true |})
       (confirmed newCert)
     = (Throw (HolderNotFound "A"), noHolderState).
Proof.
  assert (holders noHolderState = []) as H by reflexivity.
  split; [exact H|].
  destruct (@X9_holders_never_added
              "rejected" "missing holder" "unknown method"
              certificateBody (fun _ => "ax") (fun _ => "ay") (fun _ => 0%Z)
              (fun _ => "1") "kyc" leafHash demoKeccak demoNativeText
              demoWithProof demoGenerate noHolderState "site"
              (ImportZkCert {| zkCert := newCert; listZkCerts := Some true |})
              (confirmed newCert))
    as [_ Hnone].
  destruct (Hnone H) as [_ [_ Himport]].
  exact (Himport _ eq_refl).
Defined.

Lemma X12_witness :
  Forall (fun zkCert => objectPrototype (certificateBody zkCert) = None)
         [newCert]
  /\ Exists (fun zkCert => objectPrototype (certificateBody zkCert) <> None)
            [newCert; inheritedNameCert]
  /\ (exists o,
         demoOverview [newCert] = Ok o
         /\ getProp o "twitter"
            = Some [{| providerPubKey := ("ax", "ay");
                       disclosedExpirationDate := None;
                       disclosedVerificationLevel := None |}])
  /\ demoOverview [newCert; inheritedNameCert] = Throw TypeError.
Proof.
  assert (Forall (fun zkCert =>
                    objectPrototype (certificateBody zkCert) = None)
                 [newCert]) as Hplain
      by (repeat constructor).
  assert (Exists (fun zkCert =>
                    objectPrototype (certificateBody zkCert) <> None)
                 [newCert; inheritedNameCert]) as Hinherited
      by (apply Exists_cons_tl, Exists_cons_hd; discriminate).
  split; [exact Hplain|]. split; [exact Hinherited|]. split.
  - destruct (proj1 (@X12_overview_groups_by_standard
                       certificateBody (fun _ => "ax") (fun _ => "ay")
                       (fun _ => 0%Z) (fun _ => "1") "kyc" [newCert])
                    Hplain) as [o [Ho Hget]].
    exists o. split; [exact Ho|]. exact (Hget "twitter").
  - exact (proj2 (@X12_overview_groups_by_standard
                    certificateBody (fun _ => "ax") (fun _ => "ay")
                    (fun _ => 0%Z) (fun _ => "1") "kyc"
                    [newCert; inheritedNameCert])
                 Hinherited).
Defined.

(** Under the standard [constructor] the chain starts from the text of the
    function [Object] and the origin does not enter the hash. *)
Example storage_hash_inherited_name :
  getZkCertStorageHashes certificateBody leafHash demoKeccak demoNativeText
    [newCert; inheritedNameCert] "site"
  = [("twitter", "k(k(site)M)");
     ("constructor", "k(function Object() { [native code] }P)")].
Proof. reflexivity. Qed.

(** An import that asks for the overview saves the zkCert and then throws
    when the overview does. *)
Example import_saved_overview_throws :
  demoHandle oneCertState "site"
    (ImportZkCert {| zkCert := inheritedNameCert; listZkCerts := Some true |})
    (confirmed inheritedNameCert)
  = (Throw TypeError,
     {| holders := holders oneCertState;
        zkCerts := zkCerts oneCertState ++ [inheritedNameCert] |}).
Proof. reflexivity. Qed.

Lemma X10_witness :
  demoHandleAll oneCertState
    [("site", ImportZkCert {| zkCert := newCert; listZkCerts := None |},
      confirmed newCert);
     ("other", DeleteZkCert, confirmed newCert)]
  = oneCertState.
Proof.
  refine (proj2 (@X10_import_then_delete
                   "rejected" "missing holder" "unknown method"
                   certificateBody (fun _ => "ax") (fun _ => "ay")
                   (fun _ => 0%Z) (fun _ => "1") "kyc" leafHash demoKeccak
                   demoNativeText
                   demoWithProof demoGenerate oneCertState
                   {| zkCert := newCert; listZkCerts := None |}
                   newCert "site" "other" _ _ _)).
  - simpl. auto.
  - simpl. intros [H|[]]. discriminate.
  - reflexivity.
Defined.

Lemma X11_witness :
  dialogAnswer (confirmed storedCert) = true
  /\ (fst (demoHandle oneCertState "site"
             (UpdateMerkleProof
                [{| leaf := "L"; pathElements := []; leafIndex := 0 |};
                 {| leaf := "M"; pathElements := []; leafIndex := 1 |}])
             (confirmed storedCert))
      <> Ok MerkleProofsUpdated ->
      snd (demoHandle oneCertState "site"
             (UpdateMerkleProof
                [{| leaf := "L"; pathElements := []; leafIndex := 0 |};
                 {| leaf := "M"; pathElements := []; leafIndex := 1 |}])
             (confirmed storedCert))
      = oneCertState).
Proof.
  assert (dialogAnswer (confirmed storedCert) = true) as H by reflexivity.
  split; [exact H|].
  exact (proj1 (proj2 (@X11_update_all_or_nothing
                         "rejected" "missing holder" "unknown method"
                         certificateBody (fun _ => "ax") (fun _ => "ay")
                         (fun _ => 0%Z) (fun _ => "1") "kyc" leafHash
                         demoKeccak demoNativeText demoWithProof
                         demoGenerate oneCertState
                         "site" _ (confirmed storedCert) H))).
Defined.

(** An update whose second proof has no zkCert: the first proof's change is
    not persisted either. *)
Example update_missing_leaf :
  demoHandle oneCertState "site"
    (UpdateMerkleProof
       [{| leaf := "L"; pathElements := []; leafIndex := 0 |};
        {| leaf := "M"; pathElements := []; leafIndex := 1 |}])
    (confirmed storedCert)
  = (Throw (ZkCertNotInWallet "M"), oneCertState).
Proof. reflexivity. Qed.

Lemma X15_witness :
  In (leafHash storedCert) (map leafHash (zkCerts oneCertState))
  /\ exists stored,
       demoHandle oneCertState "site" ExportZkCert (confirmed storedCert)
       = (Ok (ExportedZkCert (Some stored)), oneCertState)
       /\ In stored (zkCerts oneCertState)
       /\ leafHash stored = leafHash storedCert.
Proof.
  assert (In (leafHash storedCert) (map leafHash (zkCerts oneCertState)))
    as H by (simpl; auto).
  split; [exact H|].
  exact (proj1 (@X15_export_lookup
                  "rejected" "missing holder" "unknown method"
                  certificateBody (fun _ => "ax") (fun _ => "ay")
                  (fun _ => 0%Z) (fun _ => "1") "kyc" leafHash demoKeccak
                  demoNativeText demoWithProof demoGenerate oneCertState "site" storedCert)
               H).
Defined.
